(** * ChebPE: Chebyshev probability estimation

    A shallow embedding of the notebook [chebpe/chebpe.ipynb]: the interval
    inverter [invert_T2rootp], the degree selector [find_next_k], the
    worst-case width [max_error_cp] and the estimation loop [chebpe].

    Numeric model.  Python and numpy floats are read as real numbers with
    exact arithmetic.  Where the code leaves the reals, the IEEE behaviour
    of numpy is written out: a numpy division by zero gives an infinity or
    a NaN, [int] of an infinity or of a NaN raises, a Python division by
    zero raises.  Integers ([k], [n], the tally, the query count) are [Z].
    A statement that needs a quantity to stay in the range of a float says
    so with [float_max].

    [np.sqrt] and [np.arccos] are read as [sqrt] and [acos] on their
    domains only.  Inside the loop they stay there: the bounds p_min and
    p_max are in [0,1] at every pass ([state_at_unit]), [find_next_k]
    raises on a bound outside [0,1] before anything else is computed, and
    the bounds of the binomial interval are in [0,1]
    ([proportion_confint_unit]). *)

From Stdlib Require Import Reals Lra Lia ZArith List Bool.
From Stdlib Require Import Zfloor.
From Equations Require Import Equations.
Import ListNotations.

Open Scope R_scope.

(** ** Chebyshev polynomials of the first kind *)

(** Modelled from the spec: [scipy.special.eval_chebyt] is not part of the
    repository.  T_n is the Chebyshev polynomial of the first kind, here by
    its three-term recurrence T_0 = 1, T_1 = x, T_(n+2) = 2 x T_(n+1) - T_n;
    [chebyt_cos] below is the property T_n(cos theta) = cos(n theta) of the
    glossary. *)
Fixpoint chebyt (n : nat) (x : R) : R :=
  match n with
  | O => 1
  | S m =>
      match m with
      | O => x
      | S p => 2 * x * chebyt m x - chebyt p x
      end
  end.

(** The degree as the code passes it, a Python integer. *)
Definition cheb (n : Z) (x : R) : R := chebyt (Z.abs_nat n) x.

(** ** Interval inverter *)

Definition invert_T2rootp (T2 : R) (n : Z) (p_int : R) : R :=
  let theta_int := acos (sqrt p_int) in
  let c := PI / (2 * IZR n) in
  let t := Zfloor (theta_int / c) in
  let theta :=
    if (t mod 2 =? 0)%Z
    then acos (2 * T2 - 1) / (2 * IZR n)
    else 2 * c - acos (2 * T2 - 1) / (2 * IZR n) in
  let k := (t / 2)%Z in
  let theta := theta + PI * IZR k / IZR n in
  (cos theta) ^ 2.

(** The half-period of T_n(sqrt p)^2 that [p] falls in, as the inverter
    computes it for its reference point. *)
Definition half_period (n : Z) (p : R) : Z :=
  Zfloor (acos (sqrt p) / (PI / (2 * IZR n))).

(** ** Python and numpy arithmetic outside the reals *)

Inductive exn : Type :=
| ZeroDivisionError
| ValueError
| OverflowError.

Inductive result (A : Type) : Type :=
| Ok (a : A)
| Raise (e : exn).

Arguments Ok {A} a.
Arguments Raise {A} e.

Definition bind {A B : Type} (m : result A) (f : A -> result B) : result B :=
  match m with
  | Ok a => f a
  | Raise e => Raise e
  end.

Notation "x <- m ;; f" := (bind m (fun x => f))
  (at level 61, m at next level, right associativity).

(** A numpy float64 that may have left the reals. *)
Inductive npfloat : Type :=
| Fin (x : R)
| Inf (positive : bool)
| NaN.

(** numpy's [x / y] on float64: a zero divisor gives a signed infinity, or
    a NaN for 0/0 (with a RuntimeWarning, no exception).  The zero divisor
    is +0.0: the only divisor the loop uses is a difference of two
    squares, and [a - a] is +0.0. *)
Definition np_div (x y : R) : npfloat :=
  if Req_dec_T y 0 then
    if Rlt_dec 0 x then Inf true
    else if Rlt_dec x 0 then Inf false
    else NaN
  else Fin (x / y).

(** [a < b] with [a] a numpy float64: false on a NaN. *)
Definition np_lt (a : npfloat) (b : R) : bool :=
  match a with
  | Fin x => if Rlt_dec x b then true else false
  | Inf positive => negb positive
  | NaN => false
  end.

(** The largest finite float64, (2 - 2^-52) 2^1023.  A hypothesis
    [x <= float_max] keeps a quantity that the code computes within the
    range of a float, where floats are read as reals. *)
Definition float_max : R := (2 - / 2 ^ 52) * 2 ^ 1023.

(** Python's [int] on a finite float: truncation towards zero. *)
Definition py_int (x : R) : Z :=
  if Rle_dec 0 x then Zfloor x else Zceil x.

(** [0 <= p <= 1]: outside it [np.arccos(np.sqrt(p))] is a NaN. *)
Definition in_unit (p : R) : bool :=
  if Rle_dec 0 p then (if Rle_dec p 1 then true else false) else false.

(** Python's [range(lo, hi)]. *)
Definition py_range (lo hi : Z) : list Z :=
  map (fun i => (lo + Z.of_nat i)%Z) (seq 0 (Z.to_nat (hi - lo))).

(** ** Degree selector *)

(** Step 2 of [find_next_k]: the first candidate degree, made odd. *)
Definition first_degree (theta_lo theta_hi : R) : Z :=
  let n := py_int ((PI / 2) / (theta_hi - theta_lo)) in
  if (n mod 2 =? 0)%Z then (n + 1)%Z else n.

(** The test of step 3 at degree [n]. *)
Definition no_extremum (theta_lo theta_hi : R) (n : Z) : bool :=
  (py_int (2 * IZR n * theta_lo / PI) =? py_int (2 * IZR n * theta_hi / PI))%Z.

(** Step 3 of [find_next_k]: the [while] loop over the candidates. *)
Equations? search_degree (theta_lo theta_hi : R) (min_k n : Z) : option Z
  by wf (Z.to_nat (n - (2 * min_k + 1))) lt :=
  search_degree theta_lo theta_hi min_k n with Z_gt_dec n (2 * min_k + 1) => {
    | left _ =>
        if no_extremum theta_lo theta_hi n
        then Some ((n - 1) / 2)%Z
        else search_degree theta_lo theta_hi min_k (n - 2);
    | right _ => None }.
Proof. lia. Qed.

(** [None] inside [Ok] is Python's [None]: no degree above the floor.
    A bound outside [0,1] makes both angles NaN and [int] raises
    ValueError; equal angles make the quotient infinite and [int] raises
    OverflowError. *)
Definition find_next_k (p_min p_max : R) (min_k : Z) : result (option Z) :=
  if in_unit p_min && in_unit p_max then
    let theta_lo := acos (sqrt p_max) in
    let theta_hi := acos (sqrt p_min) in
    if Req_dec_T (theta_hi - theta_lo) 0 then Raise OverflowError
    else Ok (search_degree theta_lo theta_hi min_k
               (first_degree theta_lo theta_hi))
  else Raise ValueError.

(** ** Exact binomial interval *)

(** P(Bin(m, x) >= s), for s <= m. *)
Definition binom_tail (s m : nat) (x : R) : R :=
  sum_f_R0
    (fun i => C m (s + i) * x ^ (s + i) * (1 - x) ^ (m - (s + i)))
    (m - s).

(** The distribution function of Beta(a, b) at integer a, b >= 1. *)
Definition beta_cdf (a b : nat) (x : R) : R :=
  binom_tail a (a + b - 1) x.

Definition below_quantile (u : R) (a b : nat) (x : R) : Prop :=
  0 <= x <= 1 /\ (x = 0 \/ beta_cdf a b x <= u).

(** Modelled from the spec: [scipy.stats.beta.ppf] is not part of the
    repository.  The [u]-quantile of Beta(a, b) is the largest point of
    [0,1] at which the distribution function is at most [u]. *)
Definition beta_ppf (u : R) (a b : nat) : R :=
  proj1_sig
    (completeness (below_quantile u a b)
       (ex_intro (is_upper_bound (below_quantile u a b)) 1
          (fun x H => proj2 (proj1 H)))
       (ex_intro (below_quantile u a b) 0
          (conj (conj (Rle_refl 0) Rle_0_1) (or_introl eq_refl)))).

(** A float that may be a NaN ([None]). *)
Definition maybe_nan : Type := option R.

(** Modelled from the spec: [statsmodels.stats.proportion.proportion_confint]
    with [method="beta"] is not part of the repository.  Section 4.1: the
    lower bound is the alpha/2 quantile of Beta(s, m-s+1), the upper bound
    the 1-alpha/2 quantile of Beta(s+1, m-s); s = 0 forces lower = 0 and
    s = m forces upper = 1.  The library does not raise: away from the
    forced values, a bound is a NaN when the parameters of its Beta
    distribution are not positive or alpha/2 is outside [0,1]. *)
Definition proportion_confint (count nobs : Z) (alpha : R)
  : maybe_nan * maybe_nan :=
  let s := Z.to_nat count in
  let m := Z.to_nat nobs in
  (if ((count =? 0) && negb (nobs =? 0))%Z then Some 0
   else if ((0 <? count) && (count <=? nobs))%Z && in_unit (alpha / 2)
        then Some (beta_ppf (alpha / 2) s (m - s + 1))
        else None,
   if ((count =? nobs) && negb (nobs =? 0))%Z then Some 1
   else if ((0 <=? count) && (count <? nobs))%Z && in_unit (alpha / 2)
        then Some (beta_ppf (1 - alpha / 2) (s + 1) (m - s))
        else None).

(** ** Worst-case interval width *)

(** The body of the [for] loop of [max_error_cp]; a comparison with a NaN
    is false and leaves [max_error] as it is. *)
Definition max_error_step (delta : R) (Nshots : Z) (max_error : R)
  (counts : Z) : R :=
  match proportion_confint counts Nshots delta with
  | (Some lower, Some upper) =>
      if Rgt_dec ((upper - lower) / 2) max_error
      then (upper - lower) / 2
      else max_error
  | _ => max_error
  end.

Definition max_error_cp (delta : R) (Nshots : Z) : R :=
  fold_left (max_error_step delta Nshots) (py_range 0 (Nshots + 1)) 0.

(** ** Estimation loop *)

(** The keyword arguments of [chebpe]: [nu] a float, [r] and [Nshots]
    Python integers, as their defaults are. *)
Record config : Type := mkConfig {
  nu : R;
  r : Z;
  Nshots : Z
}.

(** The defaults of [chebpe]. *)
Definition default_config : config := mkConfig 8 2 100.

(** The inputs of a run.  [rand i] is the value of the i-th call of
    [np.random.random()], the module-level generator of the code. *)
Record run : Type := mkRun {
  p_target : R;
  eps : R;
  alpha : R;
  cfg : config;
  rand : nat -> R
}.

(** The variables of the [while] loop, and the number of random draws. *)
Record state : Type := mkState {
  p_min : R;
  p_max : R;
  num_flips : Z;
  num_heads : Z;
  k : Z;
  queries : Z;
  draws : nat
}.

(** Step 3 of [chebpe]. *)
Definition init_state : state := mkState 0 1 0 0 0 0 0.

Definition width (st : state) : R := p_max st - p_min st.

(** One pass of the sampling loop of step 4(c). *)
Definition toss_once (rn : run) (T2 : R) (st : state) : state :=
  mkState (p_min st) (p_max st)
    (num_flips st + 1)
    (if Rlt_dec (rand rn (draws st)) T2
     then (num_heads st + 1)%Z else num_heads st)
    (k st)
    (queries st + (2 * k st + 1))
    (S (draws st)).

Fixpoint toss (rn : run) (T2 : R) (count : nat) (st : state) : state :=
  match count with
  | O => st
  | S c => toss rn T2 c (toss_once rn T2 st)
  end.

(** Step 4(a): adopt a better degree and reset the tally. *)
Definition adopt (new_k : option Z) (st : state) : state :=
  match new_k with
  | Some k' => mkState (p_min st) (p_max st) 0 0 k' (queries st) (draws st)
  | None => st
  end.

(** Step 4(b): the gap and the early/late test. *)
Definition gap (st : state) : R :=
  cheb (2 * k st + 1) (sqrt (p_max st)) ^ 2
  - cheb (2 * k st + 1) (sqrt (p_min st)) ^ 2.

Definition late_ratio (err_max : R) (st : state) : npfloat :=
  np_div (err_max * (p_max st - p_min st)) (gap st).

Definition is_late (rn : run) (err_max : R) (st : state) : bool :=
  np_lt (late_ratio err_max st) (nu (cfg rn) * eps rn).

Definition Nshots_i (rn : run) (err_max : R) (st : state) : Z :=
  if is_late rn err_max st then 1%Z else Nshots (cfg rn).

(** The numeric slack of step 4(e). *)
Definition slack : R := 1 / 10 ^ 15.

(** Python's [sorted([a, b])]: the two are swapped when [b < a], which is
    false when one of them is a NaN. *)
Definition py_sorted (a b : maybe_nan) : maybe_nan * maybe_nan :=
  match a, b with
  | Some x, Some y => (Some (Rmin x y), Some (Rmax x y))
  | _, _ => (a, b)
  end.

(** Python's [max(x, y)] and [min(x, y)]: [y] when [y > x] (when [y < x]),
    else [x]; so [x] when [y] is a NaN. *)
Definition py_max (x : R) (y : maybe_nan) : R :=
  match y with
  | Some v => Rmax x v
  | None => x
  end.

Definition py_min (x : R) (y : maybe_nan) : R :=
  match y with
  | Some v => Rmin x v
  | None => x
  end.

(** Steps 4(d), 4(e) and 5(d): the new interval.  The inverter maps a NaN
    to a NaN, and so does adding the slack. *)
Definition update (alpha_T : R) (st : state) : state :=
  let (T2_min, T2_max) :=
    proportion_confint (num_heads st) (num_flips st) alpha_T in
  let p_int := (p_min st + p_max st) / 2 in
  let invert := fun T2 => invert_T2rootp T2 (2 * k st + 1) p_int in
  let (p_min_star, p_max_star) :=
    py_sorted (option_map invert T2_min) (option_map invert T2_max) in
  let p_min_star := option_map (fun x => x - slack) p_min_star in
  let p_max_star := option_map (fun x => x + slack) p_max_star in
  mkState (py_max (p_min st) p_min_star) (py_min (p_max st) p_max_star)
    (num_flips st) (num_heads st) (k st) (queries st) (draws st).

(** The body of the [while] loop of step 4. *)
Definition chebpe_iter (rn : run) (alpha_T err_max : R) (st : state)
  : result state :=
  new_k <- find_next_k (p_min st) (p_max st) (r (cfg rn) * k st) ;;
  let st1 := adopt new_k st in
  let shots := Nshots_i rn err_max st1 in
  let T2 := cheb (2 * k st1 + 1) (sqrt (p_target rn)) ^ 2 in
  let st2 := toss rn T2 (Z.to_nat shots) st1 in
  Ok (update alpha_T st2).

(** The guard of the [while] loop. *)
Definition continue (rn : run) (st : state) : bool :=
  if Rgt_dec (p_max st - p_min st) (eps rn * 2) then true else false.

(** The dictionary that [chebpe] returns. *)
Record record : Type := mkRecord {
  rec_config : config;
  rec_epsilon : R;
  rec_p_target : R;
  rec_alpha : R;
  p_estimate : R;
  exact_error : R;
  ci_width : R;
  num_oracle_calls : Z
}.

Definition make_record (rn : run) (st : state) : record :=
  mkRecord (cfg rn) (eps rn) (p_target rn) (alpha rn)
    ((p_min st + p_max st) / 2)
    (Rabs (p_target rn - (p_min st + p_max st) / 2))
    ((p_max st - p_min st) / 2)
    (queries st).

(** How a run ends: it returns, it raises with the loop variables as they
    are at that point, or the fuel of the model runs out. *)
Inductive outcome : Type :=
| Returned (res : record)
| Raised (e : exn) (st : state)
| Running (st : state).

(** The [while] loop of step 4, for at most [fuel] passes. *)
Fixpoint chebpe_loop (rn : run) (alpha_T err_max : R) (fuel : nat)
  (st : state) : outcome :=
  if continue rn st then
    match fuel with
    | O => Running st
    | S fuel' =>
        match chebpe_iter rn alpha_T err_max st with
        | Ok st' => chebpe_loop rn alpha_T err_max fuel' st'
        | Raise e => Raised e st
        end
    end
  else Returned (make_record rn st).

(** The state at the top of the pass number [i] (from 0), when the run gets
    that far. *)
Fixpoint state_at (rn : run) (alpha_T err_max : R) (i : nat)
  : option state :=
  match i with
  | O => Some init_state
  | S j =>
      match state_at rn alpha_T err_max j with
      | Some st =>
          if continue rn st then
            match chebpe_iter rn alpha_T err_max st with
            | Ok st' => Some st'
            | Raise _ => None
            end
          else None
      | None => None
      end
  end.

(** Step 1 of [chebpe]: T = int(np.ceil(np.log(1/(2*eps))/np.log(r))).
    [eps] is read as a Python number: [1/(2*eps)] is a Python division and
    raises ZeroDivisionError on zero (with a numpy float 0.0 the quotient
    is an infinity instead, and [int] raises OverflowError: an exception
    at epsilon = 0 either way).  The logarithm of
    a negative number is a NaN and [int] of it raises ValueError; log(0)
    is minus infinity, and dividing by it gives a zero; log(1) is zero,
    and dividing by it gives an infinity or a NaN, on which [int]
    raises. *)
Definition compute_T (eps : R) (r : Z) : result Z :=
  if Req_dec_T (2 * eps) 0 then Raise ZeroDivisionError
  else if Rlt_dec (1 / (2 * eps)) 0 then Raise ValueError
  else if (r <? 0)%Z then Raise ValueError
  else if (r =? 0)%Z then Ok 0%Z
  else if (r =? 1)%Z then
    (if Req_dec_T (ln (1 / (2 * eps))) 0
     then Raise ValueError else Raise OverflowError)
  else Ok (Zceil (ln (1 / (2 * eps)) / ln (IZR r))).

(** [alpha / T] with [alpha] a Python float and [T] a Python integer. *)
Definition compute_alpha_T (alpha : R) (T : Z) : result R :=
  if (T =? 0)%Z then Raise ZeroDivisionError else Ok (alpha / IZR T).

(** Steps 1 and 2 of [chebpe]: T, alpha_T and err_max. *)
Definition setup (rn : run) : result (Z * R * R) :=
  T <- compute_T (eps rn) (r (cfg rn)) ;;
  alpha_T <- compute_alpha_T (alpha rn) T ;;
  Ok (T, alpha_T, max_error_cp alpha_T (Nshots (cfg rn))).

Definition chebpe (rn : run) (fuel : nat) : outcome :=
  match setup rn with
  | Ok (_, alpha_T, err_max) =>
      chebpe_loop rn alpha_T err_max fuel init_state
  | Raise e => Raised e init_state
  end.

(** ** Runs and states of the examples *)

(** epsilon = 1/8, alpha = 0.05, the defaults nu = 8, r = 2, Nshots = 100,
    a target 0.3 and a generator that always draws 1/2. *)
Definition example_run : run :=
  mkRun (3 / 10) (1 / 8) (1 / 20) default_config (fun _ => 1 / 2).

(** The interval (0.3, 0.7) at the top of a pass, after 100 tosses at
    k = 0. *)
Definition coarse_state : state :=
  mkState (3 / 10) (7 / 10) 100 50 0 100 100.

(** The same pass once the selector has moved to k = 1: T_3(sqrt p)^2
    decreases on (0.3, 0.7). *)
Definition falling_state : state :=
  mkState (3 / 10) (7 / 10) 0 0 1 100 100.

(** epsilon = 1/512 with the default configuration. *)
Definition fine_run : run :=
  mkRun (1 / 2) (1 / 512) (1 / 20) default_config (fun _ => 1 / 2).


(** Nshots = -1, with a valid epsilon and alpha. *)
Definition negative_shots_run : run :=
  mkRun (3 / 10) (1 / 8) (1 / 20) (mkConfig 8 2 (-1)) (fun _ => 1 / 2).

(** alpha = 2 and Nshots = -1, with a valid epsilon. *)
Definition unchecked_run : run :=
  mkRun (3 / 10) (1 / 8) 2 (mkConfig 8 2 (-1)) (fun _ => 1 / 2).

(** The target 0: T_n(0)^2 = 0 at every odd n, so no toss gives heads. *)
Definition tails_run : run :=
  mkRun 0 (1 / 8) (1 / 20) default_config (fun _ => 1 / 2).

(** The loop variables after [j] tails in a row at degree 1. *)
Definition all_tails (j : nat) (st : state) : Prop :=
  p_min st = 0 /\ k st = 0%Z /\ num_heads st = 0%Z /\
  num_flips st = Z.of_nat j /\ 3 / 10 <= p_max st <= 1.

(** ** Branches of the inverter and coverage *)

(** The angle that [invert_T2rootp] builds when its reference falls in the
    half-period [t]: the inverter returns the squared cosine of
    [branch_angle T2 n (half_period n p_int)]. *)
Definition branch_angle (T2 : R) (n t : Z) : R :=
  (if (t mod 2 =? 0)%Z
   then acos (2 * T2 - 1) / (2 * IZR n)
   else 2 * (PI / (2 * IZR n)) - acos (2 * T2 - 1) / (2 * IZR n))
  + PI * IZR (t / 2) / IZR n.

(** The angle [theta] lies in the closed half-period [t] of degree [n]. *)
Definition in_half_period (n t : Z) (theta : R) : Prop :=
  IZR t * (PI / (2 * IZR n)) <= theta <= (IZR t + 1) * (PI / (2 * IZR n)).

(** The degree in use has no extremum inside the interval of the state:
    the angles of the interval lie in one half-period. *)
Definition single_branch (st : state) : Prop :=
  exists t : Z,
    (0 <= t < 2 * k st + 1)%Z /\
    forall p : R,
      p_min st <= p <= p_max st ->
      in_half_period (2 * k st + 1) t (acos (sqrt p)).

(** The binomial interval of the tally of [st] has two proper bounds, and
    the success probability of the oracle at the degree of [st] lies
    between them. *)
Definition covers (rn : run) (alpha_T : R) (st : state) : Prop :=
  exists T2_min T2_max : R,
    proportion_confint (num_heads st) (num_flips st) alpha_T =
      (Some T2_min, Some T2_max) /\
    T2_min <= cheb (2 * k st + 1) (sqrt (p_target rn)) ^ 2 <= T2_max.

(** The number of samples that a pass draws from the state [st]. *)
Definition shots_of (rn : run) (err_max : R) (st : state)
  (new_k : option Z) : nat :=
  Z.to_nat (Nshots_i rn err_max (adopt new_k st)).

(** The tally is a tally, and every sample is paid for. *)
Definition tally_ok (st : state) : Prop :=
  (0 <= k st)%Z /\
  (0 <= num_heads st <= num_flips st)%Z /\
  (num_flips st <= Z.of_nat (draws st))%Z /\
  (Z.of_nat (draws st) <= queries st)%Z.

(** The loop variables after [j] passes that saw only tails at degree 1:
    the upper bound is at most the upper bound of the binomial interval of
    the tally, with the slack. *)
Definition zero_inv (alpha_T : R) (j : nat) (st : state) : Prop :=
  p_min st = 0 /\ k st = 0%Z /\ num_heads st = 0%Z /\
  (Z.of_nat j <= num_flips st)%Z /\ 0 < p_max st <= 1 /\
  ((0 < num_flips st)%Z ->
   p_max st
   <= beta_ppf (1 - alpha_T / 2) 1 (Z.to_nat (num_flips st)) + slack).

(** epsilon = 2/5 and the target 0, with the default configuration. *)
Definition short_run : run :=
  mkRun 0 (2 / 5) (1 / 20) default_config (fun _ => 1 / 2).

(** ** Proof steps *)

(** [0 <= a / b] from [0 <= a] and [0 < b], both in reach of [lra] or
    [nra]. *)
Ltac quotient_nonneg :=
  apply Rmult_le_pos; [first [lra | nra] |];
  left; apply Rinv_0_lt_compat; lra.

(** [a / b < c] or [c <= a / b] with [0 < b]: clear the denominator. *)
Ltac clear_quotient a b :=
  replace (a / b * b) with a by (field; lra).

(** ** Trigonometric form of the Chebyshev polynomials *)

Lemma cos_three_term (a b : R) :
  cos (a + b) = 2 * cos b * cos a - cos (a - b).
Proof. rewrite cos_plus, cos_minus. ring. Qed.

Lemma chebyt_cos_pair (n : nat) (theta : R) :
  chebyt n (cos theta) = cos (INR n * theta) /\
  chebyt (S n) (cos theta) = cos (INR (S n) * theta).
Proof.
  induction n as [|n [IHa IHb]].
  - split; simpl.
    + now rewrite Rmult_0_l, cos_0.
    + now rewrite Rmult_1_l.
  - split; [exact IHb|].
    change (chebyt (S (S n)) (cos theta))
      with (2 * cos theta * chebyt (S n) (cos theta) - chebyt n (cos theta)).
    rewrite IHa, IHb.
    replace (INR (S (S n)) * theta) with (INR (S n) * theta + theta)
      by (rewrite (S_INR (S n)); ring).
    rewrite cos_three_term.
    replace (INR (S n) * theta - theta) with (INR n * theta)
      by (rewrite S_INR; ring).
    reflexivity.
Qed.

Lemma chebyt_cos (n : nat) (theta : R) :
  chebyt n (cos theta) = cos (INR n * theta).
Proof. apply chebyt_cos_pair. Qed.

Lemma sqrt_unit (p : R) : 0 <= p <= 1 -> 0 <= sqrt p <= 1.
Proof.
  intros [H0 H1]. split; [apply sqrt_pos|].
  rewrite <- sqrt_1. now apply sqrt_le_1_alt.
Qed.

Lemma cos_acos_sqrt (p : R) : 0 <= p <= 1 -> cos (acos (sqrt p)) = sqrt p.
Proof.
  intros Hp. apply cos_acos. pose proof (sqrt_unit p Hp). lra.
Qed.

Lemma acos_sqrt_bound (p : R) : 0 <= p <= 1 -> 0 <= acos (sqrt p) <= PI / 2.
Proof.
  intros Hp. pose proof (sqrt_unit p Hp) as Hs.
  pose proof (acos_bound (sqrt p)) as Hb.
  split; [lra|].
  destruct (Rle_dec (acos (sqrt p)) (PI / 2)) as [|Hn]; [assumption|].
  exfalso. apply Rnot_le_lt in Hn.
  assert (cos (acos (sqrt p)) < cos (PI / 2)) as Hc.
  { apply cos_decreasing_1; lra. }
  rewrite cos_acos_sqrt, cos_PI2 in Hc by assumption. lra.
Qed.

(** T_n(sqrt p)^2 in terms of the angle of [p]. *)
Lemma cheb_sq_angle (n : nat) (p : R) :
  0 <= p <= 1 ->
  2 * (chebyt n (sqrt p)) ^ 2 - 1 = cos (2 * (INR n * acos (sqrt p))).
Proof.
  intros Hp. rewrite <- (cos_acos_sqrt p Hp) at 1.
  rewrite chebyt_cos, cos_2a_cos. ring.
Qed.

Lemma cos_shift_even (x : R) (j : Z) : cos (x - 2 * IZR j * PI) = cos x.
Proof.
  destruct (Z_le_gt_dec 0 j) as [Hj|Hj].
  - rewrite <- (cos_period (x - 2 * IZR j * PI) (Z.to_nat j)).
    rewrite INR_IZR_INZ, Z2Nat.id by assumption.
    f_equal. ring.
  - rewrite <- (cos_period x (Z.to_nat (- j))).
    rewrite INR_IZR_INZ, Z2Nat.id by lia.
    rewrite opp_IZR. f_equal. ring.
Qed.

(** ** Angles *)

Lemma angle_0 : acos (sqrt 0) = PI / 2.
Proof. rewrite sqrt_0. apply acos_0. Qed.

Lemma angle_1 : acos (sqrt 1) = 0.
Proof. rewrite sqrt_1. apply acos_1. Qed.

Lemma cos_sq_angle (p : R) : 0 <= p <= 1 -> cos (acos (sqrt p)) ^ 2 = p.
Proof.
  intros Hp. rewrite cos_acos_sqrt by assumption.
  simpl. rewrite Rmult_1_r. apply sqrt_sqrt. lra.
Qed.

(** The angle of [p] lies above an angle whose squared cosine exceeds [p]. *)
Lemma angle_above (p theta0 : R) :
  0 <= p <= 1 -> 0 <= theta0 <= PI / 2 ->
  p < cos theta0 ^ 2 -> theta0 < acos (sqrt p).
Proof.
  intros Hp H0 Hlt.
  pose proof (acos_sqrt_bound p Hp) as Hb.
  pose proof PI_RGT_0 as Hpi.
  destruct (Rlt_dec theta0 (acos (sqrt p))) as [|Hn]; [assumption|].
  exfalso. apply Rnot_lt_le in Hn.
  assert (cos theta0 <= cos (acos (sqrt p))) as Hc
    by (apply cos_decr_1; lra).
  assert (0 <= cos theta0) as Hc0 by (apply cos_ge_0; lra).
  pose proof (cos_sq_angle p Hp) as Hsq.
  nra.
Qed.

(** The angle of [p] lies below an angle whose squared cosine is less
    than [p]. *)
Lemma angle_below (p theta0 : R) :
  0 <= p <= 1 -> 0 <= theta0 <= PI / 2 ->
  cos theta0 ^ 2 < p -> acos (sqrt p) < theta0.
Proof.
  intros Hp H0 Hlt.
  pose proof (acos_sqrt_bound p Hp) as Hb.
  pose proof PI_RGT_0 as Hpi.
  destruct (Rlt_dec (acos (sqrt p)) theta0) as [|Hn]; [assumption|].
  exfalso. apply Rnot_lt_le in Hn.
  assert (cos (acos (sqrt p)) <= cos theta0) as Hc
    by (apply cos_decr_1; lra).
  assert (0 <= cos (acos (sqrt p))) as Hc0 by (apply cos_ge_0; lra).
  pose proof (cos_sq_angle p Hp) as Hsq.
  nra.
Qed.

(** The angle decreases strictly with the probability. *)
Lemma angle_decreasing (p q : R) :
  0 <= p -> p < q -> q <= 1 -> acos (sqrt q) < acos (sqrt p).
Proof.
  intros H0 Hlt H1.
  apply angle_above; [lra | apply acos_sqrt_bound; lra |].
  rewrite cos_sq_angle; lra.
Qed.

Lemma angle_lt_PI2 (p : R) : 0 < p <= 1 -> acos (sqrt p) < PI / 2.
Proof.
  intros Hp. rewrite <- angle_0. apply angle_decreasing; lra.
Qed.

Lemma cos_sq_PI6 : cos (PI / 6) ^ 2 = 3 / 4.
Proof.
  rewrite cos_PI6.
  replace ((sqrt 3 / 2) ^ 2) with (sqrt 3 * sqrt 3 / 4) by field.
  rewrite sqrt_sqrt; lra.
Qed.

Lemma cos_sq_PI4 : cos (PI / 4) ^ 2 = 1 / 2.
Proof.
  rewrite cos_PI4.
  assert (sqrt 2 <> 0) as Hs
    by (apply Rgt_not_eq, sqrt_lt_R0; lra).
  replace ((1 / sqrt 2) ^ 2) with (1 / (sqrt 2 * sqrt 2)) by (field; exact Hs).
  rewrite sqrt_sqrt; lra.
Qed.

Lemma cos_sq_PI8 : 4 / 5 < cos (PI / 8) ^ 2.
Proof.
  pose proof (cos_2a_cos (PI / 8)) as H.
  replace (2 * (PI / 8)) with (PI / 4) in H by field.
  pose proof cos_sq_PI4 as H4.
  assert (0 <= cos (PI / 4)) as Hpos.
  { pose proof PI_RGT_0. apply cos_ge_0; lra. }
  assert (3 / 5 < cos (PI / 4)) by nra.
  nra.
Qed.

Lemma cos_sq_PI3 : cos (PI / 3) ^ 2 = 1 / 4.
Proof. rewrite cos_PI3. field. Qed.

Lemma cos_3PI8_bounds : 19 / 50 < cos (3 * PI / 8) < 2 / 5.
Proof.
  pose proof PI_RGT_0 as Hpi.
  pose proof (cos_2a_cos (3 * PI / 8)) as H.
  replace (2 * (3 * PI / 8)) with (3 * (PI / 4)) in H by field.
  rewrite cos_3PI4 in H.
  pose proof cos_sq_PI4 as H4. rewrite cos_PI4 in H4.
  assert (0 < 1 / sqrt 2) as Hpos.
  { apply Rdiv_lt_0_compat; [lra|]. apply sqrt_lt_R0. lra. }
  replace (-1 / sqrt 2) with (- (1 / sqrt 2)) in H
    by (field; apply Rgt_not_eq, sqrt_lt_R0; lra).
  assert (0 <= cos (3 * PI / 8)) as Hc by (apply cos_ge_0; lra).
  set (c := cos (3 * PI / 8)) in *. set (d := 1 / sqrt 2) in *.
  assert (7 / 10 < d < 71 / 100) by nra.
  split; nra.
Qed.

Lemma cos_sq_3PI16 : cos (3 * PI / 16) ^ 2 < 7 / 10.
Proof.
  pose proof (cos_2a_cos (3 * PI / 16)) as H.
  replace (2 * (3 * PI / 16)) with (3 * PI / 8) in H by field.
  pose proof cos_3PI8_bounds. simpl. lra.
Qed.

Lemma cos_sq_5PI16 : 3 / 10 < cos (5 * PI / 16) ^ 2.
Proof.
  pose proof (cos_2a_cos (5 * PI / 16)) as H.
  replace (2 * (5 * PI / 16)) with (- (3 * PI / 8) + PI) in H by field.
  rewrite neg_cos, cos_neg in H.
  pose proof cos_3PI8_bounds. simpl. lra.
Qed.

Lemma angle_seven_tenths : PI / 6 < acos (sqrt (7 / 10)) < 3 * PI / 16.
Proof.
  pose proof PI_RGT_0. split.
  - apply angle_above; [lra | lra | rewrite cos_sq_PI6; lra].
  - apply angle_below; [lra | lra | apply cos_sq_3PI16].
Qed.

Lemma angle_three_tenths : 5 * PI / 16 < acos (sqrt (3 / 10)) < PI / 3.
Proof.
  pose proof PI_RGT_0. split.
  - apply angle_above; [lra | lra | apply cos_sq_5PI16].
  - apply angle_below; [lra | lra | rewrite cos_sq_PI3; lra].
Qed.

(** ** The interval inverter *)

Lemma cos_sq_unit (theta : R) : 0 <= cos theta ^ 2 <= 1.
Proof. pose proof (COS_bound theta). nra. Qed.

Lemma invert_T2rootp_unit (T2 : R) (n : Z) (p_int : R) :
  0 <= invert_T2rootp T2 n p_int <= 1.
Proof. unfold invert_T2rootp. apply cos_sq_unit. Qed.

(** C10: on a value T2 in [0,1], a positive odd degree and a reference in
    (0,1], the interval inverter returns the squared cosine of a real
    angle, a probability in [0,1]. *)
Theorem invert_T2rootp_in_unit_interval (T2 : R) (n : Z) (p_int : R) :
  0 <= T2 <= 1 ->
  (0 < n)%Z -> Z.odd n = true ->
  0 < p_int <= 1 ->
  (exists theta : R, invert_T2rootp T2 n p_int = cos theta ^ 2) /\
  0 <= invert_T2rootp T2 n p_int <= 1.
Proof.
  intros _ _ _ _. split; [|apply invert_T2rootp_unit].
  unfold invert_T2rootp. eexists. reflexivity.
Qed.

Lemma invert_T2rootp_in_unit_interval_witness :
  0 <= invert_T2rootp (1 / 2) 3 (1 / 2) <= 1.
Proof.
  apply (invert_T2rootp_in_unit_interval (1 / 2) 3 (1 / 2));
    [lra | lia | reflexivity | lra].
Defined.

(** The angle that the inverter rebuilds, when the value is T_n(sqrt p)^2
    and the reference lies in the half-period [t] of the angle of [p]. *)
Lemma rebuild_angle (n : Z) (theta : R) (t : Z) :
  (0 < n)%Z ->
  IZR t <= theta / (PI / (2 * IZR n)) < IZR t + 1 ->
  (if (t mod 2 =? 0)%Z
   then acos (cos (2 * (IZR n * theta))) / (2 * IZR n)
   else 2 * (PI / (2 * IZR n))
        - acos (cos (2 * (IZR n * theta))) / (2 * IZR n))
  + PI * IZR (t / 2) / IZR n = theta.
Proof.
  intros Hn Ht.
  assert (0 < IZR n) as Hn' by now apply IZR_lt.
  pose proof PI_RGT_0 as Hpi.
  assert (theta / (PI / (2 * IZR n)) = 2 * (IZR n * theta) / PI) as Hq
    by (field; lra).
  rewrite Hq in Ht. clear Hq.
  assert (IZR t * PI <= 2 * (IZR n * theta) < (IZR t + 1) * PI) as Hx.
  { destruct Ht as [Ha Hb]. split.
    - apply (Rmult_le_compat_r PI) in Ha; [|lra].
      replace (2 * (IZR n * theta) / PI * PI) with (2 * (IZR n * theta)) in Ha
        by (field; lra). exact Ha.
    - apply (Rmult_lt_compat_r PI) in Hb; [|lra].
      replace (2 * (IZR n * theta) / PI * PI) with (2 * (IZR n * theta)) in Hb
        by (field; lra). exact Hb. }
  clear Ht.
  pose proof (Z.div_mod t 2 ltac:(lia)) as Hdm.
  pose proof (Z.mod_pos_bound t 2 ltac:(lia)) as Hmb.
  remember (t / 2)%Z as j eqn:Hj. clear Hj.
  destruct (Z.eqb_spec (t mod 2) 0) as [He|Hne].
  - assert (t = 2 * j)%Z as -> by lia.
    rewrite mult_IZR in Hx.
    rewrite <- (cos_shift_even (2 * (IZR n * theta)) j).
    rewrite acos_cos by lra.
    field. lra.
  - assert (t = 2 * j + 1)%Z as -> by lia.
    rewrite plus_IZR, mult_IZR in Hx.
    rewrite <- (cos_neg (2 * (IZR n * theta))).
    rewrite <- (cos_shift_even (- (2 * (IZR n * theta))) (- (j + 1))).
    rewrite opp_IZR, plus_IZR.
    rewrite acos_cos by lra.
    field. lra.
Qed.

(** C2: round trip of the interval inverter.  For an odd degree n, p in
    [0,1] and a reference in the same half-period as p, inverting
    T_n(sqrt p)^2 gives p back (exactly, in real arithmetic). *)
Theorem invert_T2rootp_round_trip (n : Z) (p p_ref : R) :
  (0 < n)%Z -> Z.odd n = true ->
  0 <= p <= 1 -> 0 <= p_ref <= 1 ->
  half_period n p_ref = half_period n p ->
  invert_T2rootp (cheb n (sqrt p) ^ 2) n p_ref = p.
Proof.
  intros Hn _ Hp Href Hhalf.
  unfold invert_T2rootp.
  change (Zfloor (acos (sqrt p_ref) / (PI / (2 * IZR n))))
    with (half_period n p_ref).
  rewrite Hhalf. unfold half_period.
  set (theta := acos (sqrt p)).
  set (t := Zfloor (theta / (PI / (2 * IZR n)))).
  unfold cheb.
  rewrite (cheb_sq_angle (Z.abs_nat n) p Hp).
  fold theta.
  rewrite INR_IZR_INZ, Zabs2Nat.id_abs, Z.abs_eq by lia.
  rewrite (rebuild_angle n theta t Hn (Zfloor_bound _)).
  unfold theta. rewrite cos_acos_sqrt by assumption.
  simpl. rewrite Rmult_1_r. apply sqrt_sqrt. lra.
Qed.

(** Above 3/4 the angle is below PI/6: the first half-period of degree 3. *)
Lemma half_period_3_top (p : R) : 3 / 4 < p <= 1 -> half_period 3 p = 0%Z.
Proof.
  intros Hp. unfold half_period.
  pose proof PI_RGT_0 as Hpi.
  assert (0 <= acos (sqrt p)) as H0 by (apply acos_sqrt_bound; lra).
  assert (acos (sqrt p) < PI / 6) as H1.
  { apply angle_below; [lra|lra|rewrite cos_sq_PI6; lra]. }
  apply Zfloor_eq. simpl. split.
  - quotient_nonneg.
  - apply (Rmult_lt_reg_r (PI / (2 * 3))); [lra|].
    clear_quotient (acos (sqrt p)) (PI / (2 * 3)). lra.
Qed.

Lemma invert_T2rootp_round_trip_witness :
  invert_T2rootp (cheb 3 (sqrt (4 / 5)) ^ 2) 3 (9 / 10) = 4 / 5.
Proof.
  apply (invert_T2rootp_round_trip 3 (4 / 5) (9 / 10));
    [lia | reflexivity | lra | lra |].
  rewrite !half_period_3_top by lra. reflexivity.
Defined.

(** At degree 1, T_1(sqrt p)^2 = p and the inverter is the identity. *)
Lemma invert_T2rootp_degree_one (T2 p_int : R) :
  0 <= T2 <= 1 -> 0 < p_int <= 1 -> invert_T2rootp T2 1 p_int = T2.
Proof.
  intros HT Hp. unfold invert_T2rootp.
  pose proof PI_RGT_0 as Hpi.
  assert (0 <= acos (sqrt p_int)) as Ha0 by (apply acos_sqrt_bound; lra).
  pose proof (angle_lt_PI2 p_int Hp) as Ha1.
  assert (Zfloor (acos (sqrt p_int) / (PI / (2 * 1))) = 0%Z) as ->.
  { apply Zfloor_eq. simpl. split.
    - quotient_nonneg.
    - apply (Rmult_lt_reg_r (PI / (2 * 1))); [lra|].
      clear_quotient (acos (sqrt p_int)) (PI / (2 * 1)). lra. }
  change ((0 mod 2 =? 0)%Z) with true. cbv iota.
  change (0 / 2)%Z with 0%Z.
  set (phi := acos (2 * T2 - 1)).
  replace (phi / (2 * 1) + PI * 0 / 1) with (phi / 2) by field.
  pose proof (cos_2a_cos (phi / 2)) as Hc.
  replace (2 * (phi / 2)) with phi in Hc by field.
  unfold phi in Hc at 1. rewrite cos_acos in Hc by lra.
  simpl. lra.
Qed.

(** ** The interval of the estimation loop *)

Lemma slack_pos : 0 < slack.
Proof.
  unfold slack. apply Rdiv_lt_0_compat; [lra|]. apply pow_lt. lra.
Qed.

Lemma toss_keeps_interval (rn : run) (T2 : R) (count : nat) (st : state) :
  p_min (toss rn T2 count st) = p_min st /\
  p_max (toss rn T2 count st) = p_max st.
Proof.
  revert st. induction count as [|c IH]; intros st; simpl; [tauto|].
  destruct (IH (toss_once rn T2 st)) as [-> ->]. simpl. tauto.
Qed.

Lemma adopt_keeps_interval (new_k : option Z) (st : state) :
  p_min (adopt new_k st) = p_min st /\ p_max (adopt new_k st) = p_max st.
Proof. destruct new_k; simpl; tauto. Qed.

Lemma py_sorted_unit (a b lo hi : maybe_nan) :
  (forall x, a = Some x -> 0 <= x <= 1) ->
  (forall x, b = Some x -> 0 <= x <= 1) ->
  py_sorted a b = (lo, hi) ->
  (forall x, lo = Some x -> 0 <= x <= 1) /\
  (forall x, hi = Some x -> 0 <= x <= 1).
Proof.
  intros Ha Hb. unfold py_sorted.
  destruct a as [x|], b as [y|]; intros [= <- <-];
    split; intros z [= <-]; auto.
  - specialize (Ha x eq_refl). specialize (Hb y eq_refl).
    apply Rmin_case; lra.
  - specialize (Ha x eq_refl). specialize (Hb y eq_refl).
    apply Rmax_case; lra.
Qed.

Lemma inverted_unit (n : Z) (p_int : R) (T2 : maybe_nan) (x : R) :
  option_map (fun T2 => invert_T2rootp T2 n p_int) T2 = Some x ->
  0 <= x <= 1.
Proof.
  destruct T2 as [t|]; simpl; [|discriminate].
  intros [= <-]. apply invert_T2rootp_unit.
Qed.

(** Steps 4(d) to 5(d) intersect: the lower bound does not go down, the
    upper bound does not go up, and both stay in [0,1]. *)
Lemma update_shrinks (alpha_T : R) (st : state) :
  0 <= p_min st <= 1 -> 0 <= p_max st <= 1 ->
  (p_min st <= p_min (update alpha_T st) <= 1) /\
  (0 <= p_max (update alpha_T st) <= p_max st).
Proof.
  intros Hlo Hhi. unfold update.
  destruct (proportion_confint _ _ _) as [T2_min T2_max].
  destruct (py_sorted _ _) as [lo hi] eqn:Hs.
  apply py_sorted_unit in Hs; try apply inverted_unit.
  destruct Hs as [Hl Hh].
  cbn [p_min p_max].
  pose proof slack_pos as Hsl.
  split.
  - destruct lo as [x|]; simpl; [|lra].
    specialize (Hl x eq_refl).
    split; [apply Rmax_l|apply Rmax_lub; lra].
  - destruct hi as [x|]; simpl; [|lra].
    specialize (Hh x eq_refl).
    split; [apply Rmin_glb; lra|apply Rmin_l].
Qed.

Section Passes.

(** A run, with the values that [setup] computes for it; the statements
    hold for any values. *)
Variable rn : run.
Variables alpha_T err_max : R.

Lemma chebpe_iter_shrinks (st st' : state) :
  0 <= p_min st <= 1 -> 0 <= p_max st <= 1 ->
  chebpe_iter rn alpha_T err_max st = Ok st' ->
  (p_min st <= p_min st' <= 1) /\ (0 <= p_max st' <= p_max st).
Proof.
  intros Hlo Hhi. unfold chebpe_iter.
  destruct (find_next_k _ _ _) as [new_k|e]; simpl; [|discriminate].
  intros [= <-].
  set (st1 := adopt new_k st).
  set (st2 := toss rn _ _ st1).
  destruct (toss_keeps_interval rn
              (cheb (2 * k st1 + 1) (sqrt (p_target rn)) ^ 2)
              (Z.to_nat (Nshots_i rn err_max st1)) st1) as [E1 E2].
  fold st2 in E1, E2.
  destruct (adopt_keeps_interval new_k st) as [F1 F2]. fold st1 in F1, F2.
  rewrite F1 in E1. rewrite F2 in E2.
  rewrite <- E1, <- E2 in *.
  now apply update_shrinks.
Qed.

(** A pass number [S i] is reached through a full pass number [i]. *)
Lemma state_at_succ (i : nat) (st' : state) :
  state_at rn alpha_T err_max (S i) = Some st' ->
  exists st,
    state_at rn alpha_T err_max i = Some st /\
    continue rn st = true /\
    chebpe_iter rn alpha_T err_max st = Ok st'.
Proof.
  simpl. destruct (state_at rn alpha_T err_max i) as [st|]; [|discriminate].
  destruct (continue rn st) eqn:Hc; [|discriminate].
  destruct (chebpe_iter rn alpha_T err_max st) as [st1|e] eqn:Hi;
    [|discriminate].
  intros [= <-]. now exists st.
Qed.

Lemma state_at_unit (i : nat) (st : state) :
  state_at rn alpha_T err_max i = Some st ->
  0 <= p_min st <= 1 /\ 0 <= p_max st <= 1.
Proof.
  revert st. induction i as [|i IH]; intros st H.
  - injection H as <-. simpl. lra.
  - apply state_at_succ in H. destruct H as (st0 & H0 & _ & Hi).
    destruct (IH st0 H0) as [Hlo Hhi].
    pose proof (chebpe_iter_shrinks st0 st Hlo Hhi Hi).
    lra.
Qed.

Lemma state_at_monotone (i j : nat) (st st' : state) :
  (i <= j)%nat ->
  state_at rn alpha_T err_max i = Some st ->
  state_at rn alpha_T err_max j = Some st' ->
  p_min st <= p_min st' /\ p_max st' <= p_max st.
Proof.
  intros Hij Hi. revert st'.
  induction Hij as [|j Hij IH]; intros st' Hj.
  - rewrite Hi in Hj. injection Hj as <-. lra.
  - apply state_at_succ in Hj. destruct Hj as (st0 & H0 & _ & Hstep).
    specialize (IH st0 H0).
    destruct (state_at_unit j st0 H0) as [Hlo Hhi].
    pose proof (chebpe_iter_shrinks st0 st' Hlo Hhi Hstep).
    lra.
Qed.

(** The loop from the initial state goes through every [state_at]. *)
Lemma chebpe_loop_reaches (i fuel : nat) (st : state) :
  state_at rn alpha_T err_max i = Some st ->
  chebpe_loop rn alpha_T err_max (i + fuel) init_state =
  chebpe_loop rn alpha_T err_max fuel st.
Proof.
  revert fuel st. induction i as [|i IH]; intros fuel st H.
  - injection H as <-. reflexivity.
  - apply state_at_succ in H. destruct H as (st0 & H0 & Hc & Hi).
    replace (S i + fuel)%nat with (i + S fuel)%nat by lia.
    rewrite (IH (S fuel) st0 H0). simpl. now rewrite Hc, Hi.
Qed.

(** C1: in every run, the widths p_max - p_min seen at the top of the
  successive passes of the loop never increase. *)
Theorem width_nonincreasing (i j : nat) (st st' : state) :
(i <= j)%nat ->
state_at rn alpha_T err_max i = Some st ->
state_at rn alpha_T err_max j = Some st' ->
width st' <= width st.
Proof.
intros Hij Hi Hj. unfold width.
pose proof (state_at_monotone i j st st' Hij Hi Hj).
lra.
Qed.

(** C9: in every run, p_min never decreases and p_max never increases from
  one pass of the loop to a later one, and both stay within [0,1]. *)
Theorem bounds_monotone_in_unit (i j : nat) (st st' : state) :
(i <= j)%nat ->
state_at rn alpha_T err_max i = Some st ->
state_at rn alpha_T err_max j = Some st' ->
p_min st <= p_min st' /\ p_max st' <= p_max st /\
0 <= p_min st' <= 1 /\ 0 <= p_max st' <= 1.
Proof.
intros Hij Hi Hj.
pose proof (state_at_monotone i j st st' Hij Hi Hj).
pose proof (state_at_unit j st' Hj).
tauto.
Qed.

End Passes.

(** ** Degree selector *)

Lemma py_int_floor (x : R) : 0 <= x -> py_int x = Zfloor x.
Proof. intros H. unfold py_int. destruct (Rle_dec 0 x); [reflexivity|lra]. Qed.

Lemma py_int_between (x : R) (z : Z) :
  (0 <= z)%Z -> IZR z <= x < IZR z + 1 -> py_int x = z.
Proof.
  intros Hz Hx.
  assert (0 <= IZR z) by now apply IZR_le.
  rewrite py_int_floor by lra. now apply Zfloor_eq.
Qed.

Lemma odd_half (n : Z) :
  Z.odd n = true -> (2 * ((n - 1) / 2) + 1 = n)%Z.
Proof.
  intros H. apply Z.odd_spec in H. destruct H as [m ->].
  replace (2 * m + 1 - 1)%Z with (m * 2)%Z by lia.
  rewrite Z.div_mul by lia. lia.
Qed.

Lemma first_degree_odd (theta_lo theta_hi : R) :
  Z.odd (first_degree theta_lo theta_hi) = true.
Proof.
  unfold first_degree.
  set (n := py_int _).
  pose proof (Z.div_mod n 2 ltac:(lia)) as Hdm.
  pose proof (Z.mod_pos_bound n 2 ltac:(lia)) as Hmb.
  destruct (Z.eqb_spec (n mod 2) 0) as [He|Hne].
  - rewrite Z.add_1_r, Z.odd_succ. apply Z.even_spec.
    exists (n / 2)%Z. lia.
  - apply Z.odd_spec. exists (n / 2)%Z. lia.
Qed.

(** A degree that the search returns is above the floor. *)
Lemma search_degree_above (theta_lo theta_hi : R) (min_k n kk : Z) :
  Z.odd n = true ->
  search_degree theta_lo theta_hi min_k n = Some kk ->
  (2 * kk + 1 > 2 * min_k + 1)%Z.
Proof.
  funelim (search_degree theta_lo theta_hi min_k n); intros Hodd Hs.
  - destruct (no_extremum theta_lo theta_hi n).
    + injection Hs as <-. rewrite (odd_half n Hodd). assumption.
    + apply H; [|exact Hs].
      replace (n - 2)%Z with (Z.pred (Z.pred n)) by lia.
      now rewrite Z.odd_pred, Z.even_pred.
  - discriminate.
Qed.

Lemma search_degree_stop (theta_lo theta_hi : R) (min_k n : Z) :
  (n <= 2 * min_k + 1)%Z -> search_degree theta_lo theta_hi min_k n = None.
Proof.
  intros H. simp search_degree.
  destruct (Z_gt_dec n (2 * min_k + 1)); [lia|reflexivity].
Qed.

Lemma search_degree_step (theta_lo theta_hi : R) (min_k n : Z) :
  (n > 2 * min_k + 1)%Z ->
  search_degree theta_lo theta_hi min_k n =
  if no_extremum theta_lo theta_hi n
  then Some ((n - 1) / 2)%Z
  else search_degree theta_lo theta_hi min_k (n - 2).
Proof.
  intros H. rewrite search_degree_equation_1.
  destruct (Z_gt_dec n (2 * min_k + 1)); [reflexivity|lia].
Qed.

Lemma in_unit_true (p : R) : 0 <= p <= 1 -> in_unit p = true.
Proof.
  intros [H0 H1]. unfold in_unit.
  destruct (Rle_dec 0 p); [|lra]. destruct (Rle_dec p 1); [reflexivity|lra].
Qed.

(** On a proper interval inside [0,1] the selector does not raise. *)
Lemma find_next_k_ok (p_min p_max : R) (min_k : Z) :
  0 <= p_min -> p_min < p_max -> p_max <= 1 ->
  find_next_k p_min p_max min_k =
  Ok (search_degree (acos (sqrt p_max)) (acos (sqrt p_min)) min_k
        (first_degree (acos (sqrt p_max)) (acos (sqrt p_min)))).
Proof.
  intros H0 Hlt H1. unfold find_next_k.
  rewrite !in_unit_true by lra. simpl.
  pose proof (angle_decreasing p_min p_max H0 Hlt H1).
  destruct (Req_dec_T _ _); [lra|reflexivity].
Qed.

Lemma find_next_k_full_interval : find_next_k 0 1 0 = Ok None.
Proof.
  rewrite find_next_k_ok by lra. f_equal.
  rewrite angle_0, angle_1.
  assert (first_degree 0 (PI / 2) = 1%Z) as ->.
  { unfold first_degree.
    replace (PI / 2 / (PI / 2 - 0)) with 1
      by (pose proof PI_RGT_0; field; lra).
    rewrite (py_int_between 1 1) by (simpl; lra || lia).
    reflexivity. }
  apply search_degree_stop. lia.
Qed.

(** With a lower bound 0 the upper angle is PI/2, where every odd degree
    has an extremum: the selector finds nothing. *)
Lemma search_degree_from_zero (theta_lo : R) (min_k n : Z) :
  0 <= theta_lo < PI / 2 -> (0 <= min_k)%Z ->
  search_degree theta_lo (PI / 2) min_k n = None.
Proof.
  intros Hlo Hk.
  funelim (search_degree theta_lo (PI / 2) min_k n); [|reflexivity].
  assert (no_extremum theta_lo (PI / 2) n = false) as ->.
  { unfold no_extremum. apply Z.eqb_neq.
    pose proof PI_RGT_0 as Hpi.
    assert (0 < IZR n) as Hn by (apply IZR_lt; lia).
    replace (2 * IZR n * (PI / 2) / PI) with (IZR n) by (field; lra).
    rewrite (py_int_floor (IZR n)) by lra. rewrite ZfloorZ.
    assert (0 <= 2 * IZR n * theta_lo / PI) as Hq0.
    { quotient_nonneg. }
    rewrite py_int_floor by exact Hq0.
    assert (2 * IZR n * theta_lo / PI < IZR n) as Hq.
    { apply (Rmult_lt_reg_r PI); [lra|].
      clear_quotient (2 * IZR n * theta_lo) PI. nra. }
    pose proof (Zfloor_bound (2 * IZR n * theta_lo / PI)) as [Hf _].
    intros Heqf. rewrite Heqf in Hf. lra. }
  now apply H.
Qed.

Lemma find_next_k_from_zero (p_max : R) (min_k : Z) :
  0 < p_max <= 1 -> (0 <= min_k)%Z -> find_next_k 0 p_max min_k = Ok None.
Proof.
  intros Hp Hk. rewrite find_next_k_ok by lra. f_equal.
  rewrite angle_0. apply search_degree_from_zero; [|assumption].
  split; [apply acos_sqrt_bound; lra | apply angle_lt_PI2; lra].
Qed.

Lemma angle_four_fifths : PI / 8 < acos (sqrt (4 / 5)) < PI / 6.
Proof.
  pose proof PI_RGT_0. split.
  - apply angle_above; [lra | lra | apply cos_sq_PI8].
  - apply angle_below; [lra | lra | rewrite cos_sq_PI6; lra].
Qed.

Lemma angle_three_fifths : PI / 6 < acos (sqrt (3 / 5)) < PI / 4.
Proof.
  pose proof PI_RGT_0. split.
  - apply angle_above; [lra | lra | rewrite cos_sq_PI6; lra].
  - apply angle_below; [lra | lra | rewrite cos_sq_PI4; lra].
Qed.

(** The quotient of PI/2 by an angle between PI/(2(z+1)) and PI/(2z). *)
Lemma quarter_turns (d : R) (z : Z) :
  (0 < z)%Z ->
  PI / (2 * (IZR z + 1)) < d <= PI / (2 * IZR z) ->
  py_int (PI / 2 / d) = z.
Proof.
  intros Hz [Ha Hb].
  pose proof PI_RGT_0 as Hpi.
  assert (0 < IZR z) as Hz' by (apply IZR_lt; lia).
  assert (0 < d).
  { eapply Rlt_trans; [|exact Ha]. apply Rdiv_lt_0_compat; lra. }
  apply py_int_between; [lia|].
  split.
  - apply (Rmult_le_reg_r d); [lra|].
    clear_quotient (PI / 2) d.
    apply (Rmult_le_compat_r (IZR z)) in Hb; [|lra].
    replace (PI / (2 * IZR z) * IZR z) with (PI / 2) in Hb by (field; lra).
    lra.
  - apply (Rmult_lt_reg_r d); [lra|].
    clear_quotient (PI / 2) d.
    apply (Rmult_lt_compat_r (IZR z + 1)) in Ha; [|lra].
    replace (PI / (2 * (IZR z + 1)) * (IZR z + 1)) with (PI / 2) in Ha
      by (field; lra).
    lra.
Qed.

(** The number of half-periods of degree n below an angle. *)
Lemma half_periods_below (theta : R) (n t : Z) :
  (0 < n)%Z -> (0 <= t)%Z ->
  IZR t * (PI / (2 * IZR n)) <= theta < (IZR t + 1) * (PI / (2 * IZR n)) ->
  py_int (2 * IZR n * theta / PI) = t.
Proof.
  intros Hn Ht [Ha Hb].
  pose proof PI_RGT_0 as Hpi.
  assert (0 < IZR n) as Hn' by (apply IZR_lt; lia).
  apply py_int_between; [assumption|].
  split.
  - apply (Rmult_le_reg_r (PI / (2 * IZR n)));
      [apply Rdiv_lt_0_compat; lra|].
    replace (2 * IZR n * theta / PI * (PI / (2 * IZR n))) with theta
      by (field; lra).
    exact Ha.
  - apply (Rmult_lt_reg_r (PI / (2 * IZR n)));
      [apply Rdiv_lt_0_compat; lra|].
    replace (2 * IZR n * theta / PI * (PI / (2 * IZR n))) with theta
      by (field; lra).
    exact Hb.
Qed.

Lemma find_next_k_four_fifths : find_next_k (4 / 5) 1 0 = Ok (Some 1%Z).
Proof.
  rewrite find_next_k_ok by lra. f_equal.
  rewrite angle_1.
  pose proof angle_four_fifths as [Ha Hb].
  pose proof PI_RGT_0 as Hpi.
  set (h := acos (sqrt (4 / 5))) in *.
  assert (first_degree 0 h = 3%Z) as ->.
  { unfold first_degree. rewrite (quarter_turns (h - 0) 3); [reflexivity|lia|].
    split.
    - replace (PI / (2 * (3 + 1))) with (PI / 8) by field. lra.
    - replace (PI / (2 * 3)) with (PI / 6) by field. lra. }
  rewrite search_degree_step by lia.
  assert (no_extremum 0 h 3 = true) as ->; [|reflexivity].
  unfold no_extremum. apply Z.eqb_eq.
  rewrite (half_periods_below 0 3 0), (half_periods_below h 3 0);
    [reflexivity|lia|lia| |lia|lia|].
  - replace (PI / (2 * 3)) with (PI / 6) by field. lra.
  - replace (PI / (2 * 3)) with (PI / 6) by field. lra.
Qed.

(** On (0.3, 0.7) both angles lie in the second half-period of degree 3,
    and their distance is between PI/8 and PI/6. *)
Lemma find_next_k_falling : find_next_k (3 / 10) (7 / 10) 0 = Ok (Some 1%Z).
Proof.
  rewrite find_next_k_ok by lra. f_equal.
  pose proof angle_seven_tenths as [Ha Hb].
  pose proof angle_three_tenths as [Hc Hd].
  pose proof PI_RGT_0 as Hpi.
  set (lo := acos (sqrt (7 / 10))) in *.
  set (hi := acos (sqrt (3 / 10))) in *.
  assert (first_degree lo hi = 3%Z) as ->.
  { unfold first_degree. rewrite (quarter_turns (hi - lo) 3); [reflexivity|lia|].
    split.
    - replace (PI / (2 * (3 + 1))) with (PI / 8) by field. lra.
    - replace (PI / (2 * 3)) with (PI / 6) by field. lra. }
  rewrite search_degree_step by lia.
  assert (no_extremum lo hi 3 = true) as ->; [|reflexivity].
  unfold no_extremum. apply Z.eqb_eq.
  rewrite (half_periods_below lo 3 1), (half_periods_below hi 3 1);
    [reflexivity|lia|lia| |lia|lia|].
  - replace (PI / (2 * 3)) with (PI / 6) by field. lra.
  - replace (PI / (2 * 3)) with (PI / 6) by field. lra.
Qed.

Lemma first_degree_three_fifths :
  Zfloor (PI / 2 / (acos (sqrt (3 / 5)) - acos (sqrt 1))) = 2%Z /\
  first_degree (acos (sqrt 1)) (acos (sqrt (3 / 5))) = 3%Z.
Proof.
  rewrite angle_1.
  pose proof angle_three_fifths as [Ha Hb].
  pose proof PI_RGT_0 as Hpi.
  set (h := acos (sqrt (3 / 5))) in *.
  assert (py_int (PI / 2 / (h - 0)) = 2%Z) as Hq.
  { apply quarter_turns; [lia|]. split.
    - replace (PI / (2 * (2 + 1))) with (PI / 6) by field. lra.
    - replace (PI / (2 * 2)) with (PI / 4) by field. lra. }
  split.
  - rewrite <- (py_int_floor (PI / 2 / (h - 0))); [exact Hq|].
    rewrite Rminus_0_r. quotient_nonneg.
  - unfold first_degree. rewrite Hq. reflexivity.
Qed.

Lemma toss_keeps_k (rn : run) (T2 : R) (count : nat) (st : state) :
  k (toss rn T2 count st) = k st.
Proof.
  revert st. induction count as [|c IH]; intros st; simpl; [reflexivity|].
  now rewrite IH.
Qed.

Lemma update_keeps_tally (alpha_T : R) (st : state) :
  k (update alpha_T st) = k st /\
  num_flips (update alpha_T st) = num_flips st /\
  num_heads (update alpha_T st) = num_heads st /\
  queries (update alpha_T st) = queries st /\
  draws (update alpha_T st) = draws st.
Proof.
  unfold update.
  destruct (proportion_confint _ _ _) as [T2_min T2_max].
  destruct (py_sorted _ _) as [lo hi]. simpl. tauto.
Qed.

(** The first pass of the loop: the selector finds nothing on (0,1). *)
Lemma chebpe_iter_init (rn : run) (alpha_T err_max : R) :
  chebpe_iter rn alpha_T err_max init_state =
  Ok (update alpha_T
        (toss rn (cheb 1 (sqrt (p_target rn)) ^ 2)
           (Z.to_nat (Nshots_i rn err_max init_state)) init_state)).
Proof.
  unfold chebpe_iter. simpl p_min. simpl p_max. simpl k.
  rewrite Z.mul_0_r, find_next_k_full_interval. reflexivity.
Qed.

(** C4, the selector on the full interval: it returns None, not k = 0. *)
Lemma find_next_k_full_interval_not_zero :
  find_next_k 0 1 0 = Ok None /\ find_next_k 0 1 0 <> Ok (Some 0%Z).
Proof.
  split; [apply find_next_k_full_interval|].
  rewrite find_next_k_full_interval. discriminate.
Qed.

(** C4, amended: on 0 <= p_min < p_max <= 1 with a floor min_k >= 0 the
    selector never returns a k with 2k+1 <= 2 min_k + 1; on (0,1) with
    floor 0 it returns None, and the loop keeps k = 0, the degree 1. *)
Theorem find_next_k_above_floor (p_min p_max : R) (min_k : Z) :
  0 <= p_min -> p_min < p_max -> p_max <= 1 -> (0 <= min_k)%Z ->
  (forall kk : Z,
      find_next_k p_min p_max min_k = Ok (Some kk) ->
      (2 * kk + 1 > 2 * min_k + 1)%Z) /\
  find_next_k 0 1 0 = Ok None /\
  (forall (rn : run) (alpha_T err_max : R) (st' : state),
      chebpe_iter rn alpha_T err_max init_state = Ok st' -> k st' = 0%Z).
Proof.
  intros H0 Hlt H1 Hk. split; [|split].
  - intros kk. rewrite find_next_k_ok by assumption.
    intros [= Hs]. eapply search_degree_above; [|exact Hs].
    apply first_degree_odd.
  - apply find_next_k_full_interval.
  - intros rn alpha_T err_max st'. rewrite chebpe_iter_init.
    intros [= <-].
    match goal with
    | |- k (update _ ?s) = _ =>
        destruct (update_keeps_tally alpha_T s) as [-> _]
    end.
    now rewrite toss_keeps_k.
Qed.

Lemma find_next_k_above_floor_witness :
  find_next_k (4 / 5) 1 0 = Ok (Some 1%Z) /\ (2 * 1 + 1 > 2 * 0 + 1)%Z.
Proof.
  split; [apply find_next_k_four_fifths|].
  apply (proj1 (find_next_k_above_floor (4 / 5) 1 0
                  ltac:(lra) ltac:(lra) ltac:(lra) ltac:(lia))).
  apply find_next_k_four_fifths.
Defined.

(** C5, on the interval (3/5, 1): the quotient has floor 2 and the first
    degree tested is 3, above the floor. *)
Lemma first_degree_exceeds_floor :
  let theta_lo := acos (sqrt 1) in
  let theta_hi := acos (sqrt (3 / 5)) in
  first_degree theta_lo theta_hi = 3%Z /\
  Zfloor (PI / 2 / (theta_hi - theta_lo)) = 2%Z /\
  ~ (first_degree theta_lo theta_hi
     <= Zfloor (PI / 2 / (theta_hi - theta_lo)))%Z.
Proof.
  cbv zeta. destruct first_degree_three_fifths as [Hf Hd].
  rewrite Hf, Hd. repeat split. lia.
Qed.

(** C5, amended: with q the floor of (PI/2)/(theta_hi - theta_lo), the
    first degree tested is q when q is odd and q + 1 when q is even, the
    smallest odd integer that is at least q; after a failed test the next
    candidate is the degree minus 2. *)
Theorem first_degree_smallest_odd (p_min p_max : R) :
  0 <= p_min -> p_min < p_max -> p_max <= 1 ->
  let theta_lo := acos (sqrt p_max) in
  let theta_hi := acos (sqrt p_min) in
  let q := Zfloor (PI / 2 / (theta_hi - theta_lo)) in
  first_degree theta_lo theta_hi = (if Z.even q then q + 1 else q)%Z /\
  Z.odd (first_degree theta_lo theta_hi) = true /\
  (q <= first_degree theta_lo theta_hi <= q + 1)%Z /\
  (forall min_k n : Z,
      (n > 2 * min_k + 1)%Z ->
      no_extremum theta_lo theta_hi n = false ->
      search_degree theta_lo theta_hi min_k n =
      search_degree theta_lo theta_hi min_k (n - 2)).
Proof.
  intros H0 Hlt H1 theta_lo theta_hi q.
  pose proof (angle_decreasing p_min p_max H0 Hlt H1) as Hang.
  fold theta_lo theta_hi in Hang.
  pose proof PI_RGT_0 as Hpi.
  assert (first_degree theta_lo theta_hi = (if Z.even q then q + 1 else q)%Z)
    as Hfd.
  { unfold first_degree. rewrite py_int_floor.
    - fold q. rewrite Zeven_mod. reflexivity.
    - quotient_nonneg. }
  split; [exact Hfd|]. split; [apply first_degree_odd|]. split.
  - rewrite Hfd. destruct (Z.even q); lia.
  - intros min_k n Hn Ht. rewrite search_degree_step by assumption.
    now rewrite Ht.
Qed.

Lemma first_degree_smallest_odd_witness :
  first_degree (acos (sqrt 1)) (acos (sqrt (3 / 5))) = 3%Z /\
  Z.odd (first_degree (acos (sqrt 1)) (acos (sqrt (3 / 5)))) = true.
Proof.
  split; [apply first_degree_three_fifths|].
  apply (first_degree_smallest_odd (3 / 5) 1
           ltac:(lra) ltac:(lra) ltac:(lra)).
Defined.

(** ** A run with the default configuration *)

Lemma continue_true (rn : run) (st : state) :
  p_max st - p_min st > eps rn * 2 -> continue rn st = true.
Proof.
  intros H. unfold continue. destruct (Rgt_dec _ _); [reflexivity|contradiction].
Qed.

Lemma state_at_one (rn : run) (alpha_T err_max : R) :
  1 > eps rn * 2 ->
  state_at rn alpha_T err_max 1 =
  Some (update alpha_T
          (toss rn (cheb 1 (sqrt (p_target rn)) ^ 2)
             (Z.to_nat (Nshots_i rn err_max init_state)) init_state)).
Proof.
  intros H. simpl state_at.
  rewrite continue_true by (simpl; lra).
  now rewrite chebpe_iter_init.
Qed.

Lemma width_nonincreasing_witness :
  exists st' : state,
    state_at example_run (1 / 40) (1 / 10) 1 = Some st' /\
    width st' <= width init_state.
Proof.
  eexists. split.
  - apply state_at_one. simpl. lra.
  - apply (width_nonincreasing example_run (1 / 40) (1 / 10) 0 1 init_state).
    + lia.
    + reflexivity.
    + apply state_at_one. simpl. lra.
Defined.

Lemma bounds_monotone_in_unit_witness :
  exists st' : state,
    state_at example_run (1 / 40) (1 / 10) 1 = Some st' /\
    p_min init_state <= p_min st' /\ p_max st' <= p_max init_state /\
    0 <= p_min st' <= 1 /\ 0 <= p_max st' <= 1.
Proof.
  eexists. split.
  - apply state_at_one. simpl. lra.
  - apply (bounds_monotone_in_unit example_run (1 / 40) (1 / 10) 0 1
             init_state).
    + lia.
    + reflexivity.
    + apply state_at_one. simpl. lra.
Defined.

(** ** The early/late test *)

Lemma cheb_1 (x : R) : cheb 1 x = x.
Proof. reflexivity. Qed.

Lemma cheb_1_sq (p : R) : 0 <= p -> cheb 1 (sqrt p) ^ 2 = p.
Proof.
  intros Hp. rewrite cheb_1. simpl. rewrite Rmult_1_r. now apply sqrt_sqrt.
Qed.

Lemma cheb_3_sq (p : R) :
  0 <= p -> cheb 3 (sqrt p) ^ 2 = p * (4 * p - 3) ^ 2.
Proof.
  intros Hp. unfold cheb.
  change (Z.abs_nat 3) with 3%nat. simpl chebyt.
  pose proof (sqrt_sqrt p Hp) as Hs.
  set (x := sqrt p) in *.
  replace ((2 * x * (2 * x * x - 1) - x) ^ 2)
    with (x * x * (4 * (x * x) - 3) ^ 2) by ring.
  now rewrite Hs.
Qed.

Lemma np_div_nonzero (x y : R) : y <> 0 -> np_div x y = Fin (x / y).
Proof.
  intros H. unfold np_div. destruct (Req_dec_T y 0); [contradiction|reflexivity].
Qed.


Lemma gap_falling_state : gap falling_state = - (118 / 125).
Proof.
  unfold gap, falling_state. simpl k. simpl p_max. simpl p_min.
  change (2 * 1 + 1)%Z with 3%Z.
  rewrite !cheb_3_sq by lra. field.
Qed.

(** C3, where the code leaves the claim: on (0.3, 0.7) the selector moves
    from k = 0 to k = 1; at degree 3 the gap is negative, the code takes
    the signed ratio and declares late, so the pass draws 1 sample, while
    the ratio with the absolute gap is not below nu * eps: the claim
    declares early there. *)
Theorem signed_gap_declares_late (err_max : R) :
  1 / 20 <= err_max ->
  find_next_k (p_min coarse_state) (p_max coarse_state)
    (r (cfg fine_run) * k coarse_state) = Ok (Some 1%Z) /\
  adopt (Some 1%Z) coarse_state = falling_state /\
  gap falling_state < 0 /\
  Nshots_i fine_run err_max falling_state = 1%Z /\
  ~ (err_max * (p_max falling_state - p_min falling_state)
     / Rabs (gap falling_state)
     < nu (cfg fine_run) * eps fine_run) /\
  (forall alpha_T : R,
      exists st' : state,
        chebpe_iter fine_run alpha_T err_max coarse_state = Ok st' /\
        draws st' = S (draws coarse_state)).
Proof.
  intros He.
  pose proof gap_falling_state as Hg.
  assert (Nshots_i fine_run err_max falling_state = 1%Z) as Hlate.
  { unfold Nshots_i, is_late, late_ratio.
    rewrite Hg, np_div_nonzero by lra.
    simpl. destruct (Rlt_dec _ _) as [|Hn]; [reflexivity|].
    exfalso. apply Hn.
    replace (err_max * (7 / 10 - 3 / 10) / - (118 / 125))
      with (- (err_max * (25 / 59))) by field.
    lra. }
  split; [apply find_next_k_falling|].
  split; [reflexivity|].
  split; [rewrite Hg; lra|].
  split; [exact Hlate|]. split.
  - rewrite Hg, Rabs_left by lra. simpl.
    replace (err_max * (7 / 10 - 3 / 10) / - - (118 / 125))
      with (err_max * (25 / 59)) by field.
    lra.
  - intros alpha_T. unfold chebpe_iter.
    change (find_next_k (p_min coarse_state) (p_max coarse_state)
              (r (cfg fine_run) * k coarse_state))
      with (find_next_k (3 / 10) (7 / 10) 0).
    rewrite find_next_k_falling. cbn [bind].
    change (adopt (Some 1%Z) coarse_state) with falling_state.
    rewrite Hlate. eexists. split; [reflexivity|].
    match goal with
    | |- draws (update ?a ?s) = _ =>
        destruct (update_keeps_tally a s) as (_ & _ & _ & _ & ->)
    end.
    reflexivity.
Qed.

Lemma signed_gap_declares_late_witness :
  Nshots_i fine_run (1 / 10) falling_state = 1%Z.
Proof.
  apply (signed_gap_declares_late (1 / 10)). lra.
Defined.

(** ** The exact binomial interval *)

Lemma beta_ppf_lub (u : R) (a b : nat) :
  is_lub (below_quantile u a b) (beta_ppf u a b).
Proof. unfold beta_ppf. apply proj2_sig. Qed.

Lemma beta_ppf_above (u : R) (a b : nat) (x : R) :
  below_quantile u a b x -> x <= beta_ppf u a b.
Proof. intros H. now apply (proj1 (beta_ppf_lub u a b)). Qed.

Lemma beta_ppf_unit (u : R) (a b : nat) : 0 <= beta_ppf u a b <= 1.
Proof.
  split.
  - apply beta_ppf_above. split; [lra|now left].
  - apply (proj2 (beta_ppf_lub u a b)). intros x [Hx _]. lra.
Qed.

Lemma proportion_confint_unit (count nobs : Z) (delta : R) :
  (forall lower, fst (proportion_confint count nobs delta) = Some lower ->
                 0 <= lower <= 1) /\
  (forall upper, snd (proportion_confint count nobs delta) = Some upper ->
                 0 <= upper <= 1).
Proof.
  unfold proportion_confint. cbn [fst snd]. split.
  - intros lower. destruct (_ && _); [intros [= <-]; lra|].
    destruct (_ && _); [|discriminate].
    intros [= <-]. apply beta_ppf_unit.
  - intros upper. destruct (_ && _); [intros [= <-]; lra|].
    destruct (_ && _); [|discriminate].
    intros [= <-]. apply beta_ppf_unit.
Qed.

Lemma max_error_step_bound (delta : R) (Nshots : Z) (acc : R) (counts : Z) :
  0 <= acc <= 1 / 2 ->
  0 <= max_error_step delta Nshots acc counts <= 1 / 2.
Proof.
  intros Hacc. unfold max_error_step.
  destruct (proportion_confint_unit counts Nshots delta) as [Hl Hu].
  destruct (proportion_confint counts Nshots delta) as [[lower|] [upper|]];
    try assumption.
  specialize (Hl lower eq_refl). specialize (Hu upper eq_refl).
  destruct (Rgt_dec _ _); lra.
Qed.

Lemma max_error_cp_bound (delta : R) (Nshots : Z) :
  0 <= max_error_cp delta Nshots <= 1 / 2.
Proof.
  unfold max_error_cp.
  assert (forall l acc, 0 <= acc <= 1 / 2 ->
            0 <= fold_left (max_error_step delta Nshots) l acc <= 1 / 2) as H.
  { induction l as [|c l IH]; intros acc Hacc; simpl; [assumption|].
    apply IH. now apply max_error_step_bound. }
  apply H. lra.
Qed.

Lemma C_n_0 (n : nat) : C n 0 = 1.
Proof.
  unfold C. rewrite Nat.sub_0_r. simpl fact. simpl INR.
  field. apply INR_fact_neq_0.
Qed.

(** P(Bin(b, x) >= 1) = 1 - (1 - x)^b. *)
Lemma binom_tail_one (b : nat) (x : R) :
  (0 < b)%nat -> binom_tail 1 b x = 1 - (1 - x) ^ b.
Proof.
  intros Hb.
  pose proof (binomial x (1 - x) b) as Hbin.
  rewrite (decomp_sum _ b Hb) in Hbin.
  replace (x + (1 - x)) with 1 in Hbin by ring.
  rewrite pow1, C_n_0, Nat.sub_0_r in Hbin.
  unfold binom_tail.
  replace (b - 1)%nat with (pred b) by lia.
  simpl pow in Hbin at 1.
  change (fun i : nat => C b (1 + i) * x ^ (1 + i) * (1 - x) ^ (b - (1 + i)))
    with (fun i : nat => C b (S i) * x ^ (S i) * (1 - x) ^ (b - S i)).
  lra.
Qed.

(** After up to five tails in a row, the upper bound of a 1 - 2u interval
    with u <= 4/25 is at least 0.3. *)
Lemma upper_all_tails (u : R) (b : nat) :
  21 / 25 <= u -> (1 <= b <= 5)%nat -> 3 / 10 <= beta_ppf u 1 b.
Proof.
  intros Hu Hb. apply beta_ppf_above. split; [lra|]. right.
  unfold beta_cdf. replace (1 + b - 1)%nat with b by lia.
  rewrite binom_tail_one by lia.
  destruct b as [|[|[|[|[|[|b]]]]]]; try lia; simpl; lra.
Qed.

(** ** The test at degree 1 *)

(** At k = 0 the gap is the width of the interval. *)
Lemma gap_degree_zero (st : state) :
  k st = 0%Z -> 0 <= p_min st -> 0 <= p_max st ->
  gap st = p_max st - p_min st.
Proof.
  intros Hk Hlo Hhi. unfold gap. rewrite Hk.
  change (2 * 0 + 1)%Z with 1%Z. now rewrite !cheb_1_sq.
Qed.

(** At k = 0 the ratio of the test is err_max itself. *)
Lemma is_late_degree_zero (rn : run) (err_max : R) (st : state) :
  k st = 0%Z -> 0 <= p_min st -> p_min st < p_max st ->
  err_max < nu (cfg rn) * eps rn ->
  Nshots_i rn err_max st = 1%Z.
Proof.
  intros Hk Hlo Hlt He. unfold Nshots_i, is_late, late_ratio.
  rewrite gap_degree_zero by (assumption || lra).
  rewrite np_div_nonzero by lra. simpl.
  replace (err_max * (p_max st - p_min st) / (p_max st - p_min st))
    with err_max by (field; lra).
  destruct (Rlt_dec _ _); [reflexivity|contradiction].
Qed.

(** ** Set-up of a run *)

Lemma ln_2_pos : 0 < ln 2.
Proof. pose proof ln_lt_2. lra. Qed.

Lemma compute_T_eighth : compute_T (1 / 8) 2 = Ok 2%Z.
Proof.
  unfold compute_T.
  destruct (Req_dec_T _ _); [lra|].
  destruct (Rlt_dec _ _); [lra|].
  simpl. f_equal. apply Zceil_eq.
  replace (1 / (2 * (1 / 8))) with (2 * 2) by field.
  rewrite ln_mult by lra.
  pose proof ln_2_pos.
  replace ((ln 2 + ln 2) / ln 2) with 2 by (field; lra).
  lra.
Qed.

(** A non-positive epsilon makes step 1 raise. *)
Lemma compute_T_raises (eps : R) (r : Z) :
  eps <= 0 ->
  compute_T eps r =
  Raise (if Req_dec_T eps 0 then ZeroDivisionError else ValueError).
Proof.
  intros He. unfold compute_T.
  destruct (Req_dec_T (2 * eps) 0) as [H0|H0];
    destruct (Req_dec_T eps 0) as [H1|H1]; try reflexivity; try lra.
  destruct (Rlt_dec (1 / (2 * eps)) 0) as [|Hn]; [reflexivity|].
  exfalso. apply Hn.
  assert (/ (2 * eps) < 0) by (apply Rinv_lt_0_compat; lra).
  lra.
Qed.

Lemma chebpe_after_setup (rn : run) (T : Z) (alpha_T err_max : R)
  (i fuel : nat) (st : state) :
  setup rn = Ok (T, alpha_T, err_max) ->
  state_at rn alpha_T err_max i = Some st ->
  chebpe rn (i + fuel) = chebpe_loop rn alpha_T err_max fuel st.
Proof.
  intros Hs Hst. unfold chebpe. rewrite Hs.
  now apply chebpe_loop_reaches.
Qed.

(** ** Invalid configurations *)

Lemma setup_negative_shots :
  setup negative_shots_run = Ok (2%Z, 1 / 20 / 2, 0).
Proof.
  unfold setup. simpl eps. simpl r. rewrite compute_T_eighth. reflexivity.
Qed.

(** C6, with Nshots = -1: the set-up does not fail and the first pass of
    the loop draws a sample and charges a query; the run goes on from
    there. *)
Lemma negative_shots_queries :
  exists (alpha_T err_max : R) (st : state),
    setup negative_shots_run = Ok (2%Z, alpha_T, err_max) /\
    state_at negative_shots_run alpha_T err_max 1 = Some st /\
    (forall fuel : nat,
        chebpe negative_shots_run (1 + fuel) =
        chebpe_loop negative_shots_run alpha_T err_max fuel st) /\
    queries st = 1%Z /\ draws st = 1%nat.
Proof.
  exists (1 / 20 / 2), 0. eexists. split; [apply setup_negative_shots|].
  split; [apply state_at_one; simpl; lra|].
  split.
  { intros fuel. eapply chebpe_after_setup; [apply setup_negative_shots|].
    apply state_at_one. simpl. lra. }
  assert (Nshots_i negative_shots_run 0 init_state = 1%Z) as ->.
  { apply is_late_degree_zero; simpl; lra || reflexivity. }
  match goal with
  | |- queries (update ?a ?s) = _ /\ _ =>
      destruct (update_keeps_tally a s) as (_ & _ & _ & -> & ->)
  end.
  split; reflexivity.
Qed.

(** ** A run that sees only tails *)

Lemma proportion_confint_tails (j : nat) (delta : R) :
  0 <= delta / 2 <= 1 ->
  proportion_confint 0 (Z.of_nat j + 1) delta =
  (Some 0, Some (beta_ppf (1 - delta / 2) 1 (S j))).
Proof.
  intros Hd. unfold proportion_confint.
  rewrite in_unit_true by assumption.
  replace (Z.of_nat j + 1 =? 0)%Z with false
    by (symmetry; apply Z.eqb_neq; lia).
  replace (0 =? Z.of_nat j + 1)%Z with false
    by (symmetry; apply Z.eqb_neq; lia).
  replace (0 <? Z.of_nat j + 1)%Z with true by (symmetry; apply Z.ltb_lt; lia).
  replace (Z.to_nat (Z.of_nat j + 1)) with (S j) by lia.
  reflexivity.
Qed.

Lemma tails_step (err_max : R) (j : nat) (st : state) :
  0 <= err_max < 1 -> (j < 5)%nat -> all_tails j st ->
  exists st' : state,
    chebpe_iter tails_run (1 / 20 / 2) err_max st = Ok st' /\
    all_tails (S j) st'.
Proof.
  intros He Hj. destruct st as [pmin pmax flips heads kk q d].
  unfold all_tails. cbn [p_min p_max k num_heads num_flips].
  intros (-> & -> & -> & -> & Hp).
  unfold chebpe_iter. cbn [p_min p_max k].
  change (r (cfg tails_run) * 0)%Z with 0%Z.
  rewrite find_next_k_from_zero by (lra || lia).
  cbn [bind adopt].
  rewrite is_late_degree_zero; [|reflexivity|simpl; lra|simpl; lra|simpl; lra].
  change (Z.to_nat 1) with 1%nat. cbn [k p_target tails_run].
  change (2 * 0 + 1)%Z with 1%Z.
  rewrite cheb_1_sq by lra.
  cbn [toss]. unfold toss_once.
  cbn [p_min p_max k num_heads num_flips queries draws rand tails_run].
  destruct (Rlt_dec (1 / 2) 0) as [|_]; [lra|].
  eexists. split; [reflexivity|].
  unfold update. cbn [num_heads num_flips].
  rewrite proportion_confint_tails by lra.
  cbn [p_min p_max k num_heads num_flips option_map py_sorted py_max py_min].
  change (2 * 0 + 1)%Z with 1%Z.
  set (U := beta_ppf (1 - 1 / 20 / 2 / 2) 1 (S j)).
  assert (3 / 10 <= U <= 1) as HU.
  { split; [|apply beta_ppf_unit].
    apply upper_all_tails; [lra|lia]. }
  rewrite !invert_T2rootp_degree_one by lra.
  pose proof slack_pos as Hs.
  rewrite (Rmin_left 0 U), (Rmax_right 0 U) by lra.
  repeat split.
  - apply Rmax_left. lra.
  - lia.
  - apply Rmin_glb; lra.
  - eapply Rle_trans; [apply Rmin_l|]. lra.
Qed.

Lemma tails_run_reaches (err_max : R) (i : nat) :
  0 <= err_max < 1 -> (i <= 5)%nat ->
  exists st : state,
    state_at tails_run (1 / 20 / 2) err_max i = Some st /\ all_tails i st.
Proof.
  intros He. induction i as [|i IH]; intros Hi.
  - exists init_state. split; [reflexivity|].
    unfold all_tails. simpl. repeat split; lra.
  - destruct IH as (st & Hst & Hinv); [lia|].
    destruct (tails_step err_max i st He ltac:(lia) Hinv) as (st' & Hstep & Hinv').
    exists st'. split; [|exact Hinv'].
    simpl. rewrite Hst.
    destruct Hinv as (Hlo & _ & _ & _ & Hhi).
    rewrite continue_true by (rewrite Hlo; simpl; lra).
    now rewrite Hstep.
Qed.

Lemma setup_tails_run :
  setup tails_run = Ok (2%Z, 1 / 20 / 2, max_error_cp (1 / 20 / 2) 100).
Proof.
  unfold setup. simpl eps. simpl r. rewrite compute_T_eighth. reflexivity.
Qed.

(** C7, with epsilon = 1/8 (T = 2, cap 4) and the target 0: the run makes
    five passes without an error, and is still going on. *)
Lemma tails_run_exceeds_cap :
  exists (alpha_T err_max : R) (st : state),
    setup tails_run = Ok (2%Z, alpha_T, err_max) /\
    state_at tails_run alpha_T err_max 5 = Some st /\
    (forall fuel : nat,
        chebpe tails_run (5 + fuel) =
        chebpe_loop tails_run alpha_T err_max fuel st) /\
    continue tails_run st = true /\
    (5 > 2 * 2)%nat.
Proof.
  exists (1 / 20 / 2), (max_error_cp (1 / 20 / 2) 100).
  pose proof (max_error_cp_bound (1 / 20 / 2) 100) as Hb.
  destruct (tails_run_reaches (max_error_cp (1 / 20 / 2) 100) 5
              ltac:(lra) ltac:(lia)) as (st & Hst & Hinv).
  exists st. split; [apply setup_tails_run|]. split; [exact Hst|].
  split.
  { intros fuel. eapply chebpe_after_setup; [apply setup_tails_run|exact Hst]. }
  split; [|lia].
  destruct Hinv as (Hlo & _ & _ & _ & Hhi).
  apply continue_true. rewrite Hlo. simpl. lra.
Qed.

(** ** How the loop ends *)

Lemma chebpe_loop_returns (rn : run) (alpha_T err_max : R) (fuel : nat)
  (st : state) (res : record) :
  chebpe_loop rn alpha_T err_max fuel st = Returned res ->
  ci_width res <= eps rn.
Proof.
  revert st. induction fuel as [|fuel IH]; intros st; simpl.
  - unfold continue. destruct (Rgt_dec _ _) as [|Hn]; [discriminate|].
    intros [= <-]. simpl. lra.
  - unfold continue. destruct (Rgt_dec _ _) as [|Hn].
    + destruct (chebpe_iter rn alpha_T err_max st) as [st'|e];
        [apply IH|discriminate].
    + intros [= <-]. simpl. lra.
Qed.

(** ** The inverter, branch by branch *)

Lemma invert_by_branch (T2 : R) (n : Z) (p_int : R) :
  invert_T2rootp T2 n p_int =
  cos (branch_angle T2 n (half_period n p_int)) ^ 2.
Proof. reflexivity. Qed.

Lemma acos_decreasing (x y : R) :
  -1 <= x -> x <= y -> y <= 1 -> acos y <= acos x.
Proof.
  intros Hx Hxy Hy.
  destruct (Rle_dec (acos y) (acos x)) as [|Hn]; [assumption|].
  exfalso. apply Rnot_le_lt in Hn.
  pose proof (acos_bound x). pose proof (acos_bound y).
  assert (cos (acos y) < cos (acos x)) as Hc
    by (apply cos_decreasing_1; lra).
  rewrite !cos_acos in Hc by lra. lra.
Qed.

(** The half-period [t] splits into an even part and a parity. *)
Lemma half_period_split (t : Z) :
  (t mod 2 = 0 /\ t = 2 * (t / 2))%Z \/ (t mod 2 = 1 /\ t = 2 * (t / 2) + 1)%Z.
Proof.
  pose proof (Z.div_mod t 2 ltac:(lia)).
  pose proof (Z.mod_pos_bound t 2 ltac:(lia)). lia.
Qed.

(** The branch angle in closed form. *)
Lemma branch_angle_eq (T2 : R) (n t : Z) :
  (0 < n)%Z ->
  branch_angle T2 n t =
  if (t mod 2 =? 0)%Z
  then IZR t * (PI / (2 * IZR n)) + acos (2 * T2 - 1) / (2 * IZR n)
  else (IZR t + 1) * (PI / (2 * IZR n)) - acos (2 * T2 - 1) / (2 * IZR n).
Proof.
  intros Hn. assert (0 < IZR n) as Hn' by now apply IZR_lt.
  unfold branch_angle.
  destruct (half_period_split t) as [[Hm Ht]|[Hm Ht]]; rewrite Hm; simpl.
  - rewrite Ht at 2. rewrite mult_IZR. field. lra.
  - rewrite Ht at 2. rewrite plus_IZR, mult_IZR. field. lra.
Qed.

Lemma branch_angle_in_half_period (T2 : R) (n t : Z) :
  (0 < n)%Z -> in_half_period n t (branch_angle T2 n t).
Proof.
  intros Hn. assert (0 < IZR n) as Hn' by now apply IZR_lt.
  rewrite branch_angle_eq by assumption.
  pose proof (acos_bound (2 * T2 - 1)) as [Hb0 Hb1].
  pose proof PI_RGT_0 as Hpi.
  assert (0 <= acos (2 * T2 - 1) / (2 * IZR n) <= PI / (2 * IZR n)) as Hq.
  { split.
    - apply Rmult_le_pos; [lra|]. left. apply Rinv_0_lt_compat. lra.
    - apply Rmult_le_compat_r; [|lra]. left. apply Rinv_0_lt_compat. lra. }
  unfold in_half_period. destruct (_ =? _)%Z; lra.
Qed.

Lemma cos_sq_half (x : R) : cos (x / 2) ^ 2 = (1 + cos x) / 2.
Proof.
  pose proof (cos_2a_cos (x / 2)) as H.
  replace (2 * (x / 2)) with x in H by field. simpl. lra.
Qed.

Lemma cos_sq_shift (x : R) (j : Z) : cos (x + IZR j * PI) ^ 2 = cos x ^ 2.
Proof.
  replace (x + IZR j * PI) with ((2 * x - 2 * IZR (- j) * PI) / 2)
    by (rewrite opp_IZR; field).
  rewrite cos_sq_half, cos_shift_even.
  replace x with ((2 * x) / 2) at 2 by field.
  now rewrite cos_sq_half.
Qed.

(** n times the branch angle has the squared cosine T2. *)
Lemma cos_sq_branch (T2 : R) (n t : Z) :
  (0 < n)%Z -> 0 <= T2 <= 1 ->
  cos (IZR n * branch_angle T2 n t) ^ 2 = T2.
Proof.
  intros Hn HT. assert (0 < IZR n) as Hn' by now apply IZR_lt.
  unfold branch_angle.
  set (phi := acos (2 * T2 - 1)).
  assert (cos (phi / 2) ^ 2 = T2) as Hphi.
  { rewrite cos_sq_half. unfold phi. rewrite cos_acos by lra. field. }
  destruct (_ =? _)%Z.
  - replace (IZR n * (phi / (2 * IZR n) + PI * IZR (t / 2) / IZR n))
      with (phi / 2 + IZR (t / 2) * PI) by (field; lra).
    now rewrite cos_sq_shift.
  - replace (IZR n * (2 * (PI / (2 * IZR n)) - phi / (2 * IZR n)
                      + PI * IZR (t / 2) / IZR n))
      with (- (phi / 2) + IZR (t / 2 + 1) * PI)
      by (rewrite plus_IZR; field; lra).
    rewrite cos_sq_shift.
    replace (cos (- (phi / 2)) ^ 2) with (cos (phi / 2) ^ 2)
      by (now rewrite cos_neg).
    exact Hphi.
Qed.

Lemma chebyt_opp_pair (n : nat) (x : R) :
  chebyt n (- x) = (-1) ^ n * chebyt n x /\
  chebyt (S n) (- x) = (-1) ^ S n * chebyt (S n) x.
Proof.
  induction n as [|n [IHa IHb]].
  - split; simpl; ring.
  - split; [exact IHb|].
    change (chebyt (S (S n)) (- x))
      with (2 * - x * chebyt (S n) (- x) - chebyt n (- x)).
    change (chebyt (S (S n)) x)
      with (2 * x * chebyt (S n) x - chebyt n x).
    rewrite IHa, IHb. simpl. ring.
Qed.

Lemma chebyt_abs_sq (n : nat) (x : R) :
  chebyt n (Rabs x) ^ 2 = chebyt n x ^ 2.
Proof.
  unfold Rabs. destruct (Rcase_abs x); [|reflexivity].
  rewrite (proj1 (chebyt_opp_pair n x)).
  rewrite Rpow_mult_distr, <- pow_mult, Nat.mul_comm, pow_1_even. ring.
Qed.

(** T_n at the square root of a squared cosine. *)
Lemma cheb_sq_at_cos_sq (n : Z) (theta : R) :
  (0 < n)%Z ->
  cheb n (sqrt (cos theta ^ 2)) ^ 2 = cos (IZR n * theta) ^ 2.
Proof.
  intros Hn. unfold cheb.
  replace (cos theta ^ 2) with (Rsqr (cos theta)) by apply Rsqr_pow2.
  rewrite sqrt_Rsqr_abs, chebyt_abs_sq, chebyt_cos.
  now rewrite INR_IZR_INZ, Zabs2Nat.id_abs, Z.abs_eq by lia.
Qed.

(** X1: the inverter returns a solution.  For T2 in [0,1], a positive
    degree n and a reference point in [0,1], the value p it returns
    satisfies T_n(sqrt p)^2 = T2, whichever the reference point is. *)
Theorem invert_T2rootp_solves (T2 : R) (n : Z) (p_int : R) :
  0 <= T2 <= 1 -> (0 < n)%Z -> 0 <= p_int <= 1 ->
  cheb n (sqrt (invert_T2rootp T2 n p_int)) ^ 2 = T2.
Proof.
  intros HT Hn _. rewrite invert_by_branch.
  rewrite cheb_sq_at_cos_sq by assumption.
  now apply cos_sq_branch.
Qed.

Lemma invert_T2rootp_solves_witness :
  cheb 3 (sqrt (invert_T2rootp (1 / 3) 3 (1 / 2))) ^ 2 = 1 / 3.
Proof.
  apply (invert_T2rootp_solves (1 / 3) 3 (1 / 2)); [lra|lia|lra].
Defined.

(** The half-period of a reference in (0,1] is one of 0 .. n-1. *)
Lemma half_period_range (n : Z) (p : R) :
  (0 < n)%Z -> 0 < p <= 1 -> (0 <= half_period n p < n)%Z.
Proof.
  intros Hn Hp. assert (0 < IZR n) as Hn' by now apply IZR_lt.
  pose proof PI_RGT_0 as Hpi.
  assert (0 <= acos (sqrt p)) as H0 by (apply acos_sqrt_bound; lra).
  pose proof (angle_lt_PI2 p Hp) as H1.
  unfold half_period.
  set (q := acos (sqrt p) / (PI / (2 * IZR n))).
  assert (0 <= q < IZR n) as Hq.
  { unfold q. split.
    - apply Rmult_le_pos; [lra|]. left. apply Rinv_0_lt_compat.
      apply Rdiv_lt_0_compat; lra.
    - apply (Rmult_lt_reg_r (PI / (2 * IZR n)));
        [apply Rdiv_lt_0_compat; lra|].
      replace (acos (sqrt p) / (PI / (2 * IZR n)) * (PI / (2 * IZR n)))
        with (acos (sqrt p)) by (field; lra).
      replace (IZR n * (PI / (2 * IZR n))) with (PI / 2) by (field; lra).
      exact H1. }
  pose proof (Zfloor_bound q) as [Hf0 Hf1].
  split.
  - apply (Zfloor_lub 0). simpl. lra.
  - apply lt_IZR. lra.
Qed.

(** In the half-periods 0 .. n-1 the branch angle is in [0, PI/2]. *)
Lemma branch_angle_quadrant (T2 : R) (n t : Z) :
  (0 < n)%Z -> (0 <= t < n)%Z ->
  0 <= branch_angle T2 n t <= PI / 2.
Proof.
  intros Hn Ht. assert (0 < IZR n) as Hn' by now apply IZR_lt.
  pose proof PI_RGT_0 as Hpi.
  pose proof (branch_angle_in_half_period T2 n t Hn) as [Ha Hb].
  assert (0 <= IZR t) as Ht0 by (apply IZR_le; lia).
  assert (IZR t + 1 <= IZR n) as Ht1.
  { rewrite <- plus_IZR. apply IZR_le. lia. }
  assert (0 < PI / (2 * IZR n)) as Hc by (apply Rdiv_lt_0_compat; lra).
  split.
  - eapply Rle_trans; [|exact Ha]. apply Rmult_le_pos; lra.
  - eapply Rle_trans; [exact Hb|].
    replace (PI / 2) with (IZR n * (PI / (2 * IZR n))) by (field; lra).
    apply Rmult_le_compat_r; lra.
Qed.

Lemma angle_of_cos_sq (theta : R) :
  0 <= theta <= PI / 2 -> acos (sqrt (cos theta ^ 2)) = theta.
Proof.
  intros Ht. pose proof PI_RGT_0.
  rewrite sqrt_pow2 by (apply cos_ge_0; lra).
  apply acos_cos. lra.
Qed.

(** X2: the inverter stays on the branch of its reference.  For T2 in
    [0,1], a positive degree n and a reference in (0,1], the angle of the
    returned p lies in the closed half-period of the reference. *)
Theorem invert_T2rootp_same_half_period (T2 : R) (n : Z) (p_int : R) :
  0 <= T2 <= 1 -> (0 < n)%Z -> 0 < p_int <= 1 ->
  in_half_period n (half_period n p_int)
    (acos (sqrt (invert_T2rootp T2 n p_int))).
Proof.
  intros HT Hn Hp. rewrite invert_by_branch.
  rewrite angle_of_cos_sq.
  - now apply branch_angle_in_half_period.
  - apply branch_angle_quadrant; [assumption|].
    now apply half_period_range.
Qed.

Lemma invert_T2rootp_same_half_period_witness :
  in_half_period 3 (half_period 3 (1 / 2))
    (acos (sqrt (invert_T2rootp (1 / 3) 3 (1 / 2)))).
Proof.
  apply (invert_T2rootp_same_half_period (1 / 3) 3 (1 / 2)); [lra|lia|lra].
Defined.

Lemma cos_sq_decreasing (x y : R) :
  0 <= x -> x <= y -> y <= PI / 2 -> cos y ^ 2 <= cos x ^ 2.
Proof.
  intros Hx Hxy Hy. pose proof PI_RGT_0.
  assert (cos y <= cos x) by (apply cos_decr_1; lra).
  assert (0 <= cos y) by (apply cos_ge_0; lra).
  nra.
Qed.

Lemma branch_angle_monotone (T2 T2' : R) (n t : Z) :
  (0 < n)%Z -> 0 <= T2 -> T2 <= T2' -> T2' <= 1 ->
  if (t mod 2 =? 0)%Z
  then branch_angle T2' n t <= branch_angle T2 n t
  else branch_angle T2 n t <= branch_angle T2' n t.
Proof.
  intros Hn H0 Hle H1. assert (0 < IZR n) as Hn' by now apply IZR_lt.
  rewrite !branch_angle_eq by assumption.
  assert (acos (2 * T2' - 1) <= acos (2 * T2 - 1)) as Ha
    by (apply acos_decreasing; lra).
  assert (acos (2 * T2' - 1) / (2 * IZR n)
          <= acos (2 * T2 - 1) / (2 * IZR n)) as Hq.
  { apply Rmult_le_compat_r; [|exact Ha].
    left. apply Rinv_0_lt_compat. lra. }
  destruct (_ =? _)%Z; lra.
Qed.

(** X3: the inverter is monotone in T2 on each branch: non-decreasing when
    the half-period of the reference is even, non-increasing when it is
    odd.  This is why [chebpe] sorts the two inverted bounds. *)
Theorem invert_T2rootp_monotone (T2 T2' : R) (n : Z) (p_int : R) :
  (0 < n)%Z -> 0 < p_int <= 1 ->
  0 <= T2 -> T2 <= T2' -> T2' <= 1 ->
  if Z.even (half_period n p_int)
  then invert_T2rootp T2 n p_int <= invert_T2rootp T2' n p_int
  else invert_T2rootp T2' n p_int <= invert_T2rootp T2 n p_int.
Proof.
  intros Hn Hp H0 Hle H1. rewrite !invert_by_branch.
  pose proof (half_period_range n p_int Hn Hp) as Ht.
  set (t := half_period n p_int) in *.
  pose proof (branch_angle_quadrant T2 n t Hn Ht) as Hq.
  pose proof (branch_angle_quadrant T2' n t Hn Ht) as Hq'.
  pose proof (branch_angle_monotone T2 T2' n t Hn H0 Hle H1) as Hm.
  rewrite Zeven_mod. destruct (t mod 2 =? 0)%Z.
  - apply cos_sq_decreasing; lra.
  - apply cos_sq_decreasing; lra.
Qed.

Lemma invert_T2rootp_monotone_witness :
  invert_T2rootp (1 / 3) 3 (9 / 10) <= invert_T2rootp (2 / 3) 3 (9 / 10).
Proof.
  pose proof (invert_T2rootp_monotone (1 / 3) (2 / 3) 3 (9 / 10)
                ltac:(lia) ltac:(lra) ltac:(lra) ltac:(lra) ltac:(lra)) as H.
  rewrite half_period_3_top in H by lra. exact H.
Defined.

(** ** The degree that the selector returns *)

(** The angle does not increase with the probability. *)
Lemma angle_monotone (p q : R) :
  0 <= p -> p <= q -> q <= 1 -> acos (sqrt q) <= acos (sqrt p).
Proof.
  intros H0 [Hlt | ->] H1; [|lra].
  left. now apply angle_decreasing.
Qed.

Lemma angle_injective (p q : R) :
  0 <= p <= 1 -> 0 <= q <= 1 -> acos (sqrt p) = acos (sqrt q) -> p = q.
Proof.
  intros Hp Hq He.
  rewrite <- (cos_sq_angle p Hp), <- (cos_sq_angle q Hq). now rewrite He.
Qed.

(** What a successful search has found: an odd degree above the floor, not
    above the first candidate, that passes the test. *)
Lemma search_degree_found (theta_lo theta_hi : R) (min_k n kk : Z) :
  Z.odd n = true ->
  search_degree theta_lo theta_hi min_k n = Some kk ->
  exists n' : Z,
    (2 * min_k + 1 < n' <= n)%Z /\ n' = (2 * kk + 1)%Z /\
    no_extremum theta_lo theta_hi n' = true.
Proof.
  funelim (search_degree theta_lo theta_hi min_k n); intros Hodd Hs.
  - destruct (no_extremum theta_lo theta_hi n) eqn:Ht.
    + injection Hs as <-. exists n.
      rewrite (odd_half n Hodd). repeat split; (lia || assumption).
    + destruct (H kk) as (n' & Hn' & Hk & Hp); [|exact Hs|].
      * replace (n - 2)%Z with (Z.pred (Z.pred n)) by lia.
        now rewrite Z.odd_pred, Z.even_pred.
      * exists n'. repeat split; (lia || assumption).
  - discriminate.
Qed.

(** A degree that passes the test puts the two angles, and all angles
    between them, in one half-period. *)
Lemma no_extremum_half_period (theta_lo theta_hi : R) (n : Z) :
  (0 < n)%Z -> 0 <= theta_lo -> theta_lo <= theta_hi ->
  no_extremum theta_lo theta_hi n = true ->
  exists t : Z,
    (0 <= t)%Z /\
    forall theta : R,
      theta_lo <= theta <= theta_hi ->
      IZR t * (PI / (2 * IZR n)) <= theta
      < (IZR t + 1) * (PI / (2 * IZR n)).
Proof.
  intros Hn Hlo Hle Ht. assert (0 < IZR n) as Hn' by now apply IZR_lt.
  pose proof PI_RGT_0 as Hpi.
  unfold no_extremum in Ht. apply Z.eqb_eq in Ht.
  assert (forall x, 0 <= x -> 0 <= 2 * IZR n * x / PI) as Hpos.
  { intros x Hx. apply Rmult_le_pos; [nra|].
    left. now apply Rinv_0_lt_compat. }
  rewrite !py_int_floor in Ht by (apply Hpos; lra).
  set (t := Zfloor (2 * IZR n * theta_lo / PI)) in *.
  pose proof (Zfloor_bound (2 * IZR n * theta_lo / PI)) as [Ha _].
  pose proof (Zfloor_bound (2 * IZR n * theta_hi / PI)) as [_ Hb].
  fold t in Ha. rewrite <- Ht in Hb.
  exists t. split.
  - apply (Zfloor_lub 0). simpl. apply Hpos. lra.
  - intros theta [H1 H2].
    assert (2 * IZR n * theta / PI = theta / (PI / (2 * IZR n))) as Hq
      by (field; lra).
    assert (IZR t <= theta / (PI / (2 * IZR n)) < IZR t + 1) as [Hc Hd].
    { rewrite <- Hq. split.
      - eapply Rle_trans; [exact Ha|].
        apply Rmult_le_compat_r; [left; now apply Rinv_0_lt_compat|nra].
      - eapply Rle_lt_trans; [|exact Hb].
        apply Rmult_le_compat_r; [left; now apply Rinv_0_lt_compat|nra]. }
    assert (0 < PI / (2 * IZR n)) as Hcpos by (apply Rdiv_lt_0_compat; lra).
    split.
    + apply (Rmult_le_compat_r (PI / (2 * IZR n))) in Hc; [|lra].
      replace (theta / (PI / (2 * IZR n)) * (PI / (2 * IZR n)))
        with theta in Hc by (field; lra).
      exact Hc.
    + apply (Rmult_lt_compat_r (PI / (2 * IZR n))) in Hd; [|lra].
      replace (theta / (PI / (2 * IZR n)) * (PI / (2 * IZR n)))
        with theta in Hd by (field; lra).
      exact Hd.
Qed.

(** On a closed half-period the branch angle of T_n(sqrt p)^2 is the angle
    of p. *)
Lemma branch_angle_of_cheb (n t : Z) (p : R) :
  (0 < n)%Z -> 0 <= p <= 1 ->
  in_half_period n t (acos (sqrt p)) ->
  branch_angle (cheb n (sqrt p) ^ 2) n t = acos (sqrt p).
Proof.
  intros Hn Hp [Ha Hb]. assert (0 < IZR n) as Hn' by now apply IZR_lt.
  pose proof PI_RGT_0 as Hpi.
  set (theta := acos (sqrt p)) in *.
  rewrite branch_angle_eq by assumption.
  unfold cheb. rewrite (cheb_sq_angle (Z.abs_nat n) p Hp). fold theta.
  rewrite INR_IZR_INZ, Zabs2Nat.id_abs, Z.abs_eq by lia.
  assert (IZR t * PI <= 2 * (IZR n * theta) <= (IZR t + 1) * PI) as Hx.
  { split.
    - apply (Rmult_le_compat_r (2 * IZR n)) in Ha; [|lra].
      replace (IZR t * (PI / (2 * IZR n)) * (2 * IZR n)) with (IZR t * PI)
        in Ha by (field; lra). lra.
    - apply (Rmult_le_compat_r (2 * IZR n)) in Hb; [|lra].
      replace ((IZR t + 1) * (PI / (2 * IZR n)) * (2 * IZR n))
        with ((IZR t + 1) * PI) in Hb by (field; lra). lra. }
  destruct (half_period_split t) as [[Hm Ht]|[Hm Ht]]; rewrite Hm; simpl.
  - assert (IZR t = 2 * IZR (t / 2)) as Hr
      by (rewrite Ht at 1; now rewrite mult_IZR).
    rewrite Hr in Hx.
    rewrite <- (cos_shift_even (2 * (IZR n * theta)) (t / 2)).
    rewrite acos_cos by lra. rewrite Hr. field. lra.
  - assert (IZR t = 2 * IZR (t / 2) + 1) as Hr
      by (rewrite Ht at 1; now rewrite plus_IZR, mult_IZR).
    rewrite Hr in Hx.
    rewrite <- (cos_neg (2 * (IZR n * theta))).
    rewrite <- (cos_shift_even (- (2 * (IZR n * theta))) (- (t / 2 + 1))).
    rewrite opp_IZR, plus_IZR.
    rewrite acos_cos by lra. rewrite Hr. field. lra.
Qed.

(** A reference strictly inside a half-period has that half-period. *)
Lemma half_period_inside (n t : Z) (p : R) :
  (0 < n)%Z ->
  IZR t * (PI / (2 * IZR n)) <= acos (sqrt p)
  < (IZR t + 1) * (PI / (2 * IZR n)) ->
  half_period n p = t.
Proof.
  intros Hn [Ha Hb]. assert (0 < IZR n) as Hn' by now apply IZR_lt.
  pose proof PI_RGT_0 as Hpi.
  assert (0 < PI / (2 * IZR n)) as Hc by (apply Rdiv_lt_0_compat; lra).
  unfold half_period. apply Zfloor_eq. split.
  - apply (Rmult_le_reg_r (PI / (2 * IZR n))); [lra|].
    replace (acos (sqrt p) / (PI / (2 * IZR n)) * (PI / (2 * IZR n)))
      with (acos (sqrt p)) by (field; lra).
    exact Ha.
  - apply (Rmult_lt_reg_r (PI / (2 * IZR n))); [lra|].
    replace (acos (sqrt p) / (PI / (2 * IZR n)) * (PI / (2 * IZR n)))
      with (acos (sqrt p)) by (field; lra).
    exact Hb.
Qed.

(** The half-period that the selector certifies for its degree. *)
Lemma find_next_k_half_period (p_min p_max : R) (min_k kk : Z) :
  0 <= p_min -> p_min < p_max -> p_max <= 1 -> (0 <= min_k)%Z ->
  find_next_k p_min p_max min_k = Ok (Some kk) ->
  (min_k < kk)%Z /\
  exists t : Z,
    (0 <= t < 2 * kk + 1)%Z /\
    forall p : R,
      p_min <= p <= p_max ->
      IZR t * (PI / (2 * IZR (2 * kk + 1))) <= acos (sqrt p)
      < (IZR t + 1) * (PI / (2 * IZR (2 * kk + 1))).
Proof.
  intros H0 Hlt H1 Hk. rewrite find_next_k_ok by assumption.
  intros [= Hs].
  apply search_degree_found in Hs; [|apply first_degree_odd].
  destruct Hs as (n & [Hn _] & -> & Ht).
  split; [lia|].
  pose proof (angle_decreasing p_min p_max H0 Hlt H1) as Hang.
  destruct (no_extremum_half_period _ _ (2 * kk + 1) ltac:(lia)
              (proj1 (acos_sqrt_bound p_max ltac:(lra)))
              (Rlt_le _ _ Hang) Ht) as (t & Ht0 & Hcell).
  assert (forall p, p_min <= p <= p_max ->
            IZR t * (PI / (2 * IZR (2 * kk + 1))) <= acos (sqrt p)
            < (IZR t + 1) * (PI / (2 * IZR (2 * kk + 1)))) as Hall.
  { intros p [Ha Hb]. apply Hcell. split.
    - apply angle_monotone; lra.
    - apply angle_monotone; lra. }
  exists t. split; [|exact Hall]. split; [assumption|].
  (* t < n: the lower angle is below PI/2 *)
  pose proof (Hall p_max ltac:(lra)) as [Hc _].
  pose proof (angle_lt_PI2 p_max ltac:(lra)) as Hq.
  pose proof PI_RGT_0 as Hpi.
  assert (0 < IZR (2 * kk + 1)) as Hn' by (apply IZR_lt; lia).
  apply lt_IZR.
  apply (Rmult_lt_reg_r (PI / (2 * IZR (2 * kk + 1))));
    [apply Rdiv_lt_0_compat; lra|].
  replace (IZR (2 * kk + 1) * (PI / (2 * IZR (2 * kk + 1)))) with (PI / 2)
    by (field; lra).
  lra.
Qed.




(** ** What a pass keeps *)

Lemma first_degree_inverted (theta_lo theta_hi : R) :
  theta_hi < theta_lo -> (first_degree theta_lo theta_hi <= 1)%Z.
Proof.
  intros Hlt. pose proof PI_RGT_0 as Hpi. unfold first_degree.
  set (q := PI / 2 / (theta_hi - theta_lo)).
  assert (q < 0) as Hq.
  { assert (/ (theta_hi - theta_lo) < 0) by (apply Rinv_lt_0_compat; lra).
    unfold q, Rdiv. nra. }
  assert (py_int q <= 0)%Z as Hn.
  { unfold py_int. destruct (Rle_dec 0 q); [lra|].
    replace 0%Z with (Zceil 0) by (apply (Zceil_eq 0); simpl; lra).
    apply Zceil_le. lra. }
  destruct (_ =? _)%Z; lia.
Qed.

(** On an inverted interval the selector finds nothing. *)
Lemma find_next_k_inverted (p_min p_max : R) (min_k : Z) :
  0 <= p_max -> p_max < p_min -> p_min <= 1 -> (0 <= min_k)%Z ->
  find_next_k p_min p_max min_k = Ok None.
Proof.
  intros H0 Hlt H1 Hk. unfold find_next_k.
  rewrite !in_unit_true by lra. simpl.
  pose proof (angle_decreasing p_max p_min H0 Hlt H1) as Hang.
  destruct (Req_dec_T _ _); [lra|]. f_equal.
  apply search_degree_stop.
  pose proof (first_degree_inverted _ _ Hang). lia.
Qed.

Lemma find_next_k_equal (p : R) (min_k : Z) :
  find_next_k p p min_k <> Ok None /\
  forall kk, find_next_k p p min_k <> Ok (Some kk).
Proof.
  unfold find_next_k. destruct (in_unit p); simpl.
  - destruct (Req_dec_T _ _); [split; intros; discriminate|lra].
  - split; intros; discriminate.
Qed.

(** The parts of a pass that does not raise. *)
Lemma chebpe_iter_ok (rn : run) (alpha_T err_max : R) (st st' : state) :
  chebpe_iter rn alpha_T err_max st = Ok st' ->
  exists new_k : option Z,
    find_next_k (p_min st) (p_max st) (r (cfg rn) * k st) = Ok new_k /\
    st' = update alpha_T
            (toss rn (cheb (2 * k (adopt new_k st) + 1)
                        (sqrt (p_target rn)) ^ 2)
               (shots_of rn err_max st new_k) (adopt new_k st)).
Proof.
  unfold chebpe_iter.
  destruct (find_next_k _ _ _) as [new_k|e]; simpl; [|discriminate].
  intros [= <-]. now exists new_k.
Qed.

Lemma in_unit_of_ok (p_min p_max : R) (min_k : Z) (new_k : option Z) :
  find_next_k p_min p_max min_k = Ok new_k ->
  0 <= p_min <= 1 /\ 0 <= p_max <= 1 /\ p_min <> p_max.
Proof.
  intros Hf.
  assert (p_min <> p_max) as Hne.
  { intros ->. destruct (find_next_k_equal p_max min_k) as [Ha Hb].
    destruct new_k; [now apply (Hb z)|now apply Ha]. }
  unfold find_next_k, in_unit in Hf.
  destruct (Rle_dec 0 p_min), (Rle_dec p_min 1), (Rle_dec 0 p_max),
    (Rle_dec p_max 1); simpl in Hf; try discriminate.
  repeat split; assumption.
Qed.

Lemma single_branch_init : single_branch init_state.
Proof.
  exists 0%Z. simpl. split; [lia|]. intros p Hp.
  pose proof (acos_sqrt_bound p Hp). unfold in_half_period. simpl. lra.
Qed.

Lemma single_branch_shrink (st st' : state) :
  single_branch st -> k st' = k st ->
  p_min st <= p_min st' -> p_max st' <= p_max st ->
  single_branch st'.
Proof.
  intros (t & Ht & Hcell) Hk Hlo Hhi. exists t. rewrite Hk.
  split; [assumption|]. intros p Hp. apply Hcell. lra.
Qed.

(** Step 4(a) keeps the interval on one branch of the degree in use. *)
Lemma adopt_single_branch (st : state) (min_k : Z) (new_k : option Z) :
  (0 <= min_k)%Z -> (0 <= k st)%Z -> single_branch st ->
  find_next_k (p_min st) (p_max st) min_k = Ok new_k ->
  single_branch (adopt new_k st) /\ (0 <= k (adopt new_k st))%Z.
Proof.
  intros Hm Hk Hsb Hf. destruct new_k as [kk|]; [|now split].
  destruct (in_unit_of_ok _ _ _ _ Hf) as (Hlo & Hhi & Hne).
  destruct (Rtotal_order (p_min st) (p_max st)) as [Hlt|[He|Hgt]];
    [|contradiction|].
  - destruct (find_next_k_half_period _ _ _ _
                (proj1 Hlo) Hlt (proj2 Hhi) Hm Hf) as (Hkk & t & Ht & Hcell).
    split; [|cbn [adopt k]; lia].
    exists t. cbn [adopt k p_min p_max]. split; [assumption|].
    intros p Hp. destruct (Hcell p Hp). unfold in_half_period. lra.
  - rewrite find_next_k_inverted in Hf by (lra || assumption).
    discriminate.
Qed.

Section Soundness.

Variable rn : run.
Variables alpha_T err_max : R.

(** The growth ratio is not negative. *)
Hypothesis r_nonneg : (0 <= r (cfg rn))%Z.

Lemma chebpe_iter_single_branch (st st' : state) :
  0 <= p_min st <= 1 -> 0 <= p_max st <= 1 ->
  single_branch st -> (0 <= k st)%Z ->
  chebpe_iter rn alpha_T err_max st = Ok st' ->
  single_branch st' /\ (0 <= k st')%Z.
Proof.
  intros Hlo Hhi Hsb Hk Hi.
  apply chebpe_iter_ok in Hi. destruct Hi as (new_k & Hf & ->).
  destruct (adopt_single_branch st _ new_k
              (Z.mul_nonneg_nonneg _ _ r_nonneg Hk) Hk Hsb Hf)
    as [Hsb1 Hk1].
  set (st1 := adopt new_k st) in *.
  set (st2 := toss rn _ _ st1).
  destruct (toss_keeps_interval rn
              (cheb (2 * k st1 + 1) (sqrt (p_target rn)) ^ 2)
              (shots_of rn err_max st new_k) st1) as [E1 E2].
  pose proof (toss_keeps_k rn
                (cheb (2 * k st1 + 1) (sqrt (p_target rn)) ^ 2)
                (shots_of rn err_max st new_k) st1) as E3.
  fold st2 in E1, E2, E3.
  destruct (adopt_keeps_interval new_k st) as [F1 F2]. fold st1 in F1, F2.
  destruct (update_keeps_tally alpha_T st2) as (G & _).
  destruct (update_shrinks alpha_T st2) as [U1 U2];
    [rewrite E1, F1; lra|rewrite E2, F2; lra|].
  split; [|rewrite G, E3; exact Hk1].
  apply (single_branch_shrink st2); [|exact G|lra|lra].
  apply (single_branch_shrink st1); [exact Hsb1|exact E3|lra|lra].
Qed.

Lemma state_at_single_branch (i : nat) (st : state) :
  state_at rn alpha_T err_max i = Some st ->
  single_branch st /\ (0 <= k st)%Z.
Proof.
  revert st. induction i as [|i IH]; intros st H.
  - injection H as <-. split; [apply single_branch_init|simpl; lia].
  - apply state_at_succ in H. destruct H as (st0 & H0 & _ & Hi).
    destruct (IH st0 H0) as [Hsb Hk].
    destruct (state_at_unit rn alpha_T err_max i st0 H0) as [Hlo Hhi].
    now apply (chebpe_iter_single_branch st0 st).
Qed.

(** On one branch, a binomial interval that covers T_n(sqrt p)^2 inverts
    to an interval that contains p. *)
Lemma inverted_interval_contains (st : state) (p T2_min T2_max : R) :
  single_branch st ->
  0 <= p_min st -> p_min st < p_max st -> p_max st <= 1 ->
  p_min st <= p <= p_max st ->
  0 <= T2_min -> T2_max <= 1 ->
  T2_min <= cheb (2 * k st + 1) (sqrt p) ^ 2 <= T2_max ->
  let p_int := (p_min st + p_max st) / 2 in
  let a := invert_T2rootp T2_min (2 * k st + 1) p_int in
  let b := invert_T2rootp T2_max (2 * k st + 1) p_int in
  Rmin a b <= p <= Rmax a b.
Proof.
  intros (t & Ht & Hcell) H0 Hlt H1 Hp Hlo Hup Hcov p_int a b.
  set (n := (2 * k st + 1)%Z) in *.
  assert (0 < n)%Z as Hn by lia.
  assert (half_period n p_int = t) as Hhalf.
  { apply half_period_inside; [assumption|].
    destruct (Hcell p_int) as [Ha _]; [unfold p_int; lra|].
    destruct (Hcell (p_min st)) as [_ Hb]; [lra|].
    split; [exact Ha|].
    eapply Rlt_le_trans; [|exact Hb].
    apply angle_decreasing; unfold p_int; lra. }
  unfold a, b. rewrite !invert_by_branch, Hhalf.
  set (T := cheb n (sqrt p) ^ 2) in *.
  assert (branch_angle T n t = acos (sqrt p)) as Hstar.
  { apply branch_angle_of_cheb; [assumption|lra|]. now apply Hcell. }
  assert (cos (branch_angle T n t) ^ 2 = p) as Hpstar.
  { rewrite Hstar. apply cos_sq_angle. lra. }
  pose proof (branch_angle_quadrant T2_min n t Hn ltac:(lia)) as Qa.
  pose proof (branch_angle_quadrant T n t Hn ltac:(lia)) as Qs.
  pose proof (branch_angle_quadrant T2_max n t Hn ltac:(lia)) as Qb.
  pose proof (branch_angle_monotone T2_min T n t Hn ltac:(lra) ltac:(lra)
                ltac:(lra)) as Ma.
  pose proof (branch_angle_monotone T T2_max n t Hn ltac:(lra) ltac:(lra)
                ltac:(lra)) as Mb.
  rewrite <- Hpstar.
  destruct (t mod 2 =? 0)%Z.
  - split.
    + eapply Rle_trans; [apply Rmin_l|]. apply cos_sq_decreasing; lra.
    + eapply Rle_trans; [|apply Rmax_r]. apply cos_sq_decreasing; lra.
  - split.
    + eapply Rle_trans; [apply Rmin_r|]. apply cos_sq_decreasing; lra.
    + eapply Rle_trans; [|apply Rmax_l]. apply cos_sq_decreasing; lra.
Qed.

Lemma covers_update (st : state) :
  covers rn alpha_T (update alpha_T st) <-> covers rn alpha_T st.
Proof.
  unfold covers.
  destruct (update_keeps_tally alpha_T st) as (-> & -> & -> & _).
  reflexivity.
Qed.

(** Steps 4(d) to 5(d) keep the target inside the interval when the
    binomial interval covers. *)
Lemma update_keeps_target (st : state) :
  single_branch st ->
  0 <= p_min st -> p_min st < p_max st -> p_max st <= 1 ->
  p_min st <= p_target rn <= p_max st ->
  covers rn alpha_T st ->
  p_min (update alpha_T st) <= p_target rn <= p_max (update alpha_T st).
Proof.
  intros Hsb H0 Hlt H1 Hp (T2_min & T2_max & Hci & Hcov).
  destruct (proportion_confint_unit (num_heads st) (num_flips st) alpha_T)
    as [Hl Hu].
  rewrite Hci in Hl, Hu. simpl in Hl, Hu.
  specialize (Hl T2_min eq_refl). specialize (Hu T2_max eq_refl).
  pose proof (inverted_interval_contains st (p_target rn) T2_min T2_max
                Hsb H0 Hlt H1 Hp ltac:(lra) ltac:(lra) Hcov) as Hin.
  cbv zeta in Hin.
  unfold update. rewrite Hci.
  cbn [option_map py_sorted py_max py_min p_min p_max].
  pose proof slack_pos as Hs.
  split.
  - apply Rmax_lub; lra.
  - apply Rmin_glb; lra.
Qed.

Lemma chebpe_iter_keeps_target (st st' : state) :
  single_branch st -> (0 <= k st)%Z ->
  p_min st <= p_target rn <= p_max st ->
  chebpe_iter rn alpha_T err_max st = Ok st' ->
  covers rn alpha_T st' ->
  p_min st' <= p_target rn <= p_max st'.
Proof.
  intros Hsb Hk Hp Hi Hcov.
  apply chebpe_iter_ok in Hi. destruct Hi as (new_k & Hf & ->).
  destruct (in_unit_of_ok _ _ _ _ Hf) as (Hlo & Hhi & Hne).
  destruct (adopt_single_branch st _ new_k
              (Z.mul_nonneg_nonneg _ _ r_nonneg Hk) Hk Hsb Hf)
    as [Hsb1 Hk1].
  set (st1 := adopt new_k st) in *.
  set (st2 := toss rn _ _ st1) in *.
  destruct (toss_keeps_interval rn
              (cheb (2 * k st1 + 1) (sqrt (p_target rn)) ^ 2)
              (shots_of rn err_max st new_k) st1) as [E1 E2].
  pose proof (toss_keeps_k rn
                (cheb (2 * k st1 + 1) (sqrt (p_target rn)) ^ 2)
                (shots_of rn err_max st new_k) st1) as E3.
  fold st2 in E1, E2, E3.
  destruct (adopt_keeps_interval new_k st) as [F1 F2]. fold st1 in F1, F2.
  apply (proj1 (covers_update st2)) in Hcov.
  apply update_keeps_target; try (rewrite ?E1, ?E2, ?F1, ?F2; lra).
  - apply (single_branch_shrink st1); [exact Hsb1|exact E3|lra|lra].
  - exact Hcov.
Qed.

Lemma state_at_keeps_target (i : nat) (st : state) :
  0 <= p_target rn <= 1 ->
  (forall (j : nat) (st' : state),
      (j < i)%nat ->
      state_at rn alpha_T err_max (S j) = Some st' ->
      covers rn alpha_T st') ->
  state_at rn alpha_T err_max i = Some st ->
  p_min st <= p_target rn <= p_max st.
Proof.
  intros Ht. revert st. induction i as [|i IH]; intros st Hcov H.
  - injection H as <-. simpl. lra.
  - pose proof (Hcov i st ltac:(lia) H) as Hc.
    apply state_at_succ in H. destruct H as (st0 & H0 & _ & Hi).
    destruct (state_at_single_branch i st0 H0) as [Hsb Hk].
    apply (chebpe_iter_keeps_target st0 st); try assumption.
    apply IH; [|exact H0].
    intros j st' Hj. apply Hcov. lia.
Qed.

(** X7: the deterministic half of the guarantee.  With r >= 0 and a target
    in [0,1]: if, in every pass made so far, the binomial interval of the
    tally covers the success probability of the oracle at the degree in
    use, then the target is still inside (p_min, p_max). *)
Theorem target_stays_inside (i : nat) (st : state) :
  0 <= p_target rn <= 1 ->
  (forall (j : nat) (st' : state),
      (j < i)%nat ->
      state_at rn alpha_T err_max (S j) = Some st' ->
      covers rn alpha_T st') ->
  state_at rn alpha_T err_max i = Some st ->
  p_min st <= p_target rn <= p_max st.
Proof. apply state_at_keeps_target. Qed.

(** X8: the degree in use never has an extremum inside the interval.  With
    r >= 0, at the top of every pass all angles of (p_min, p_max) lie in
    one half-period of the degree 2k+1, and k >= 0. *)
Theorem degree_in_use_has_no_extremum (i : nat) (st : state) :
  state_at rn alpha_T err_max i = Some st ->
  single_branch st /\ (0 <= k st)%Z.
Proof. apply state_at_single_branch. Qed.

End Soundness.

Lemma target_stays_inside_witness :
  exists st : state,
    state_at tails_run (1 / 20 / 2) (1 / 10) 1 = Some st /\
    p_min st <= p_target tails_run <= p_max st.
Proof.
  destruct (tails_run_reaches (1 / 10) 1 ltac:(lra) ltac:(lia))
    as (st & Hst & Hinv).
  exists st. split; [exact Hst|].
  apply (target_stays_inside tails_run (1 / 20 / 2) (1 / 10)
           ltac:(simpl; lia) 1 st); [simpl; lra| |exact Hst].
  intros j st' Hj Hst'.
  assert (j = 0%nat) as -> by lia.
  rewrite Hst in Hst'. injection Hst' as <-.
  destruct Hinv as (_ & Hk & Hh & Hf & _).
  unfold covers. rewrite Hk, Hh, Hf.
  change (Z.of_nat 1) with (Z.of_nat 0 + 1)%Z.
  rewrite proportion_confint_tails by lra.
  do 2 eexists. split; [reflexivity|].
  change (2 * 0 + 1)%Z with 1%Z. simpl p_target.
  rewrite cheb_1_sq by lra.
  pose proof (beta_ppf_unit (1 - 1 / 20 / 2 / 2) 1 1). lra.
Defined.

Lemma degree_in_use_has_no_extremum_witness :
  single_branch init_state /\ (0 <= k init_state)%Z.
Proof.
  apply (degree_in_use_has_no_extremum example_run (1 / 40) (1 / 10)
           ltac:(simpl; lia) 0 init_state).
  reflexivity.
Defined.

(** ** The gap in a run *)

(** On one branch T_n(sqrt p)^2 takes each value once. *)
Lemma single_branch_injective (st : state) (p q : R) :
  single_branch st ->
  0 <= p_min st -> p_max st <= 1 ->
  p_min st <= p <= p_max st -> p_min st <= q <= p_max st ->
  cheb (2 * k st + 1) (sqrt p) ^ 2 = cheb (2 * k st + 1) (sqrt q) ^ 2 ->
  p = q.
Proof.
  intros (t & Ht & Hcell) H0 H1 Hp Hq He.
  apply angle_injective; [lra|lra|].
  rewrite <- (branch_angle_of_cheb (2 * k st + 1) t p);
    [|lia|lra|now apply Hcell].
  rewrite <- (branch_angle_of_cheb (2 * k st + 1) t q);
    [|lia|lra|now apply Hcell].
  now rewrite He.
Qed.

(** On the interval of a pass T_n(sqrt p)^2 is monotone at the degree in
    use, so its values at the two ends differ. *)
Lemma gap_nonzero_in_pass (rn : run) (alpha_T err_max : R) (i : nat)
  (st : state) (new_k : option Z) :
  (0 <= r (cfg rn))%Z -> 0 <= eps rn ->
  state_at rn alpha_T err_max i = Some st ->
  continue rn st = true ->
  find_next_k (p_min st) (p_max st) (r (cfg rn) * k st) = Ok new_k ->
  gap (adopt new_k st) <> 0 /\
  late_ratio err_max (adopt new_k st) =
  Fin (err_max * (p_max st - p_min st) / gap (adopt new_k st)).
Proof.
  intros Hr He Hst Hc Hf.
  destruct (state_at_single_branch rn alpha_T err_max Hr i st Hst)
    as [Hsb Hk].
  destruct (state_at_unit rn alpha_T err_max i st Hst) as [Hlo Hhi].
  destruct (adopt_single_branch st _ new_k
              (Z.mul_nonneg_nonneg _ _ Hr Hk) Hk Hsb Hf) as [Hsb1 _].
  destruct (adopt_keeps_interval new_k st) as [F1 F2].
  assert (p_min st < p_max st) as Hlt.
  { unfold continue in Hc. destruct (Rgt_dec _ _); [lra|discriminate]. }
  assert (gap (adopt new_k st) <> 0) as Hg.
  { unfold gap. intros Hz.
    assert (p_max (adopt new_k st) = p_min (adopt new_k st)) as Heq.
    { apply (single_branch_injective (adopt new_k st));
        try (rewrite ?F1, ?F2; lra); [assumption|lra]. }
    rewrite F1, F2 in Heq. lra. }
  split; [exact Hg|].
  unfold late_ratio. rewrite np_div_nonzero by exact Hg.
  now rewrite F1, F2.
Qed.

(** X9: in exact arithmetic the early/late test never divides by zero.
    With r >= 0 and epsilon >= 0, in every pass the gap at the degree that
    step 4(a) leaves in use is not zero, and the ratio of the test is the
    real quotient. *)
Theorem gap_is_not_zero_in_a_run (rn : run) (alpha_T err_max : R) (i : nat)
  (st : state) (new_k : option Z) :
  (0 <= r (cfg rn))%Z -> 0 <= eps rn ->
  state_at rn alpha_T err_max i = Some st ->
  continue rn st = true ->
  find_next_k (p_min st) (p_max st) (r (cfg rn) * k st) = Ok new_k ->
  gap (adopt new_k st) <> 0 /\
  late_ratio err_max (adopt new_k st) =
  Fin (err_max * (p_max st - p_min st) / gap (adopt new_k st)).
Proof. apply gap_nonzero_in_pass. Qed.

Lemma gap_is_not_zero_in_a_run_witness :
  gap (adopt None init_state) <> 0.
Proof.
  apply (gap_is_not_zero_in_a_run example_run (1 / 40) (1 / 10) 0
           init_state None).
  - simpl. lia.
  - simpl. lra.
  - reflexivity.
  - apply continue_true. simpl. lra.
  - change (r (cfg example_run) * k init_state)%Z with 0%Z.
    apply find_next_k_full_interval.
Defined.

(** ** Where a run can raise *)

Lemma compute_T_ok_pos (eps : R) (r T : Z) :
  compute_T eps r = Ok T -> 0 < eps.
Proof.
  unfold compute_T.
  destruct (Req_dec_T (2 * eps) 0) as [|Hne]; [discriminate|].
  destruct (Rlt_dec (1 / (2 * eps)) 0) as [|Hn]; [discriminate|].
  intros _. destruct (Rlt_dec 0 eps) as [|Hneg]; [assumption|].
  exfalso. apply Hn.
  assert (/ (2 * eps) < 0) by (apply Rinv_lt_0_compat; lra).
  lra.
Qed.

Lemma setup_ok_pos (rn : run) (T : Z) (alpha_T err_max : R) :
  setup rn = Ok (T, alpha_T, err_max) -> 0 < eps rn.
Proof.
  unfold setup.
  destruct (compute_T (eps rn) (r (cfg rn))) as [T'|] eqn:HT;
    [|discriminate].
  intros _. now apply (compute_T_ok_pos _ _ _ HT).
Qed.

(** How the loop ends, in terms of the states at the top of the passes. *)
Lemma chebpe_loop_outcome (rn : run) (alpha_T err_max : R) (fuel i : nat)
  (st : state) :
  state_at rn alpha_T err_max i = Some st ->
  match chebpe_loop rn alpha_T err_max fuel st with
  | Returned res =>
      exists (j : nat) (st' : state),
        state_at rn alpha_T err_max j = Some st' /\
        continue rn st' = false /\ res = make_record rn st'
  | Raised e st' =>
      exists j : nat,
        state_at rn alpha_T err_max j = Some st' /\
        continue rn st' = true /\
        chebpe_iter rn alpha_T err_max st' = Raise e
  | Running st' =>
      exists j : nat,
        state_at rn alpha_T err_max j = Some st' /\
        continue rn st' = true
  end.
Proof.
  revert i st. induction fuel as [|fuel IH]; intros i st Hst; simpl.
  - destruct (continue rn st) eqn:Hc.
    + now exists i.
    + now exists i, st.
  - destruct (continue rn st) eqn:Hc.
    + destruct (chebpe_iter rn alpha_T err_max st) as [st'|e] eqn:Hi.
      * apply (IH (S i)). simpl. now rewrite Hst, Hc, Hi.
      * now exists i.
    + now exists i, st.
Qed.

(** With epsilon >= 0 a pass from a state of the run does not raise. *)
Lemma pass_does_not_raise (rn : run) (alpha_T err_max : R) (i : nat)
  (st : state) :
  0 <= eps rn ->
  state_at rn alpha_T err_max i = Some st ->
  continue rn st = true ->
  exists st' : state, chebpe_iter rn alpha_T err_max st = Ok st'.
Proof.
  intros He Hst Hc.
  destruct (state_at_unit rn alpha_T err_max i st Hst) as [Hlo Hhi].
  assert (p_min st < p_max st) as Hlt.
  { unfold continue in Hc. destruct (Rgt_dec _ _); [lra|discriminate]. }
  unfold chebpe_iter.
  rewrite find_next_k_ok by lra. simpl. eexists. reflexivity.
Qed.

(** X10: a run raises only in its set-up.  If [chebpe] raises, the
    exception is the one of step 1 or of alpha/T, and the loop variables
    are still the initial ones: the loop itself never raises. *)
Theorem chebpe_raises_only_in_setup (rn : run) (fuel : nat) (e : exn)
  (st : state) :
  chebpe rn fuel = Raised e st ->
  setup rn = Raise e /\ st = init_state.
Proof.
  unfold chebpe.
  destruct (setup rn) as [[[T alpha_T] err_max]|e'] eqn:Hs.
  - intros Hr. exfalso.
    pose proof (setup_ok_pos rn T alpha_T err_max Hs) as He.
    pose proof (chebpe_loop_outcome rn alpha_T err_max fuel 0 init_state
                  eq_refl) as Ho.
    rewrite Hr in Ho. destruct Ho as (j & Hst & Hc & Hi).
    destruct (pass_does_not_raise rn alpha_T err_max j st
                ltac:(lra) Hst Hc) as [st' Hok].
    rewrite Hok in Hi. discriminate.
  - intros [= <- <-]. now split.
Qed.

Lemma chebpe_raises_only_in_setup_witness :
  setup (mkRun (3 / 10) (-1) (1 / 20) default_config (fun _ => 1 / 2)) =
  Raise ValueError.
Proof.
  apply (chebpe_raises_only_in_setup
           (mkRun (3 / 10) (-1) (1 / 20) default_config (fun _ => 1 / 2))
           10 ValueError init_state).
  unfold chebpe, setup. rewrite compute_T_raises by (simpl; lra).
  simpl eps. destruct (Req_dec_T (-1) 0); [lra|reflexivity].
Defined.

(** X11: the estimate is within epsilon of the target when every interval
    covers.  With r >= 0 and a target in [0,1]: if [chebpe] returns and in
    every pass the binomial interval covered the success probability of
    the oracle, then exact_error <= ci_width <= epsilon. *)
Theorem estimate_within_epsilon (rn : run) (fuel : nat) (res : record)
  (T : Z) (alpha_T err_max : R) :
  (0 <= r (cfg rn))%Z -> 0 <= p_target rn <= 1 ->
  setup rn = Ok (T, alpha_T, err_max) ->
  (forall (j : nat) (st : state),
      state_at rn alpha_T err_max (S j) = Some st -> covers rn alpha_T st) ->
  chebpe rn fuel = Returned res ->
  exact_error res <= ci_width res /\ ci_width res <= eps rn.
Proof.
  intros Hr Ht Hs Hcov. unfold chebpe. rewrite Hs. intros Hret.
  split; [|now apply (chebpe_loop_returns _ _ _ _ _ _ Hret)].
  pose proof (chebpe_loop_outcome rn alpha_T err_max fuel 0 init_state
                eq_refl) as Ho.
  rewrite Hret in Ho. destruct Ho as (j & st & Hst & _ & ->).
  assert (p_min st <= p_target rn <= p_max st) as Hin.
  { apply (state_at_keeps_target rn alpha_T err_max Hr j st Ht);
      [|exact Hst].
    intros j' st' _. apply Hcov. }
  simpl. apply Rabs_le. lra.
Qed.

(** ** The tally and the cost *)

(** The sampling loop of step 4(c): [count] flips, [count] draws, a cost
    of 2k+1 per flip, and at most [count] new heads. *)
Lemma toss_tally (rn : run) (T2 : R) (count : nat) (st : state) :
  let st' := toss rn T2 count st in
  draws st' = (draws st + count)%nat /\
  num_flips st' = (num_flips st + Z.of_nat count)%Z /\
  queries st' = (queries st + (2 * k st + 1) * Z.of_nat count)%Z /\
  (num_heads st <= num_heads st' <= num_heads st + Z.of_nat count)%Z.
Proof.
  revert st. induction count as [|c IH]; intros st.
  - simpl. repeat split; lia.
  - cbn [toss]. cbv zeta.
    destruct (IH (toss_once rn T2 st)) as (Hd & Hf & Hq & Hh).
    rewrite Hd, Hf, Hq. unfold toss_once in *. cbn [draws num_flips queries
      num_heads k] in *.
    destruct (Rlt_dec _ _); repeat split; lia.
Qed.

(** X12: what a pass costs.  A pass that does not raise draws
    Nshots_i samples (none when that number is negative), adds 2k+1 to the
    query count for each of them at the degree k left in use by step 4(a),
    and counts them in the tally, which restarts from zero when the degree
    changes. *)
Theorem pass_accounting (rn : run) (alpha_T err_max : R) (st st' : state) :
  chebpe_iter rn alpha_T err_max st = Ok st' ->
  exists new_k : option Z,
    find_next_k (p_min st) (p_max st) (r (cfg rn) * k st) = Ok new_k /\
    let shots := shots_of rn err_max st new_k in
    k st' = match new_k with Some kk => kk | None => k st end /\
    draws st' = (draws st + shots)%nat /\
    queries st' = (queries st + (2 * k st' + 1) * Z.of_nat shots)%Z /\
    num_flips st' =
      ((match new_k with Some _ => 0 | None => num_flips st end)
       + Z.of_nat shots)%Z.
Proof.
  intros Hi. apply chebpe_iter_ok in Hi. destruct Hi as (new_k & Hf & ->).
  exists new_k. split; [exact Hf|]. cbv zeta.
  set (st1 := adopt new_k st).
  set (T2 := cheb (2 * k st1 + 1) (sqrt (p_target rn)) ^ 2).
  set (shots := shots_of rn err_max st new_k).
  destruct (update_keeps_tally alpha_T (toss rn T2 shots st1))
    as (-> & -> & _ & -> & ->).
  destruct (toss_tally rn T2 shots st1) as (Hd & Hfl & Hq & _).
  rewrite toss_keeps_k, Hd, Hfl, Hq.
  unfold st1. destruct new_k; cbn [adopt k draws queries num_flips];
    repeat split; lia.
Qed.

Lemma pass_accounting_witness :
  exists st' : state,
    chebpe_iter negative_shots_run (1 / 20 / 2) 0 init_state = Ok st' /\
    draws st' = 1%nat.
Proof.
  eexists. split; [apply chebpe_iter_init|].
  destruct (pass_accounting negative_shots_run (1 / 20 / 2) 0 init_state _
              (chebpe_iter_init negative_shots_run (1 / 20 / 2) 0))
    as (new_k & Hf & _ & Hd & _).
  rewrite Hd.
  change (find_next_k (p_min init_state) (p_max init_state)
            (r (cfg negative_shots_run) * k init_state))
    with (find_next_k 0 1 0) in Hf.
  rewrite find_next_k_full_interval in Hf. injection Hf as <-.
  unfold shots_of. cbn [adopt].
  rewrite is_late_degree_zero; [reflexivity|reflexivity|simpl; lra..].
Defined.

Section Tally.

Variable rn : run.
Variables alpha_T err_max : R.

Hypothesis r_nonneg : (0 <= r (cfg rn))%Z.

Lemma chebpe_iter_tally_ok (st st' : state) :
  tally_ok st ->
  chebpe_iter rn alpha_T err_max st = Ok st' -> tally_ok st'.
Proof.
  intros (Hk & Hh & Hf & Hq) Hi.
  apply chebpe_iter_ok in Hi. destruct Hi as (new_k & Hfk & ->).
  set (st1 := adopt new_k st).
  assert (tally_ok st1) as (Hk1 & Hh1 & Hf1 & Hq1).
  { unfold st1. destruct new_k as [kk|];
      [|unfold tally_ok; cbn [adopt]; repeat split; lia].
    cbn [adopt]. unfold tally_ok. cbn [k num_heads num_flips draws queries].
    repeat split; try lia.
    destruct (in_unit_of_ok _ _ _ _ Hfk) as (Hlo & Hhi & Hne).
    destruct (Rtotal_order (p_min st) (p_max st)) as [Hlt|[He|Hgt]];
      [|contradiction|].
    - destruct (find_next_k_half_period _ _ _ _ (proj1 Hlo) Hlt (proj2 Hhi)
                  (Z.mul_nonneg_nonneg _ _ r_nonneg Hk) Hfk) as [Hkk _].
      nia.
    - rewrite find_next_k_inverted in Hfk
        by (lra || now apply Z.mul_nonneg_nonneg).
      discriminate. }
  set (T2 := cheb (2 * k st1 + 1) (sqrt (p_target rn)) ^ 2).
  set (shots := shots_of rn err_max st new_k).
  unfold tally_ok.
  destruct (update_keeps_tally alpha_T (toss rn T2 shots st1))
    as (-> & -> & -> & -> & ->).
  destruct (toss_tally rn T2 shots st1) as (Hd & Hfl & Hqq & Hhh).
  rewrite toss_keeps_k, Hd, Hfl, Hqq.
  repeat split; (lia || nia).
Qed.

Lemma state_at_tally_ok (i : nat) (st : state) :
  state_at rn alpha_T err_max i = Some st -> tally_ok st.
Proof.
  revert st. induction i as [|i IH]; intros st H.
  - injection H as <-. unfold tally_ok. simpl. lia.
  - apply state_at_succ in H. destruct H as (st0 & H0 & _ & Hi).
    apply (chebpe_iter_tally_ok st0 st); [now apply IH|exact Hi].
Qed.

(** X13: the tally stays a tally.  With r >= 0, at the top of every pass
    0 <= num_heads <= num_flips, the flips of the tally are at most the
    samples drawn, and the query count is at least the number of samples
    drawn. *)
Theorem tally_is_consistent (i : nat) (st : state) :
  state_at rn alpha_T err_max i = Some st ->
  (0 <= num_heads st <= num_flips st)%Z /\
  (num_flips st <= Z.of_nat (draws st))%Z /\
  (Z.of_nat (draws st) <= queries st)%Z.
Proof. intros H. now destruct (state_at_tally_ok i st H) as (_ & ? & ? & ?). Qed.

Lemma chebpe_iter_degree (st st' : state) :
  (0 <= k st)%Z ->
  chebpe_iter rn alpha_T err_max st = Ok st' ->
  k st' = k st \/ (r (cfg rn) * k st < k st')%Z.
Proof.
  intros Hk Hi.
  pose proof Hi as Hi'.
  apply chebpe_iter_ok in Hi. destruct Hi as (new_k & Hfk & ->).
  destruct (update_keeps_tally alpha_T
              (toss rn (cheb (2 * k (adopt new_k st) + 1)
                          (sqrt (p_target rn)) ^ 2)
                 (shots_of rn err_max st new_k) (adopt new_k st)))
    as (-> & _).
  rewrite toss_keeps_k.
  destruct new_k as [kk|]; [right|now left]. cbn [adopt k].
  destruct (in_unit_of_ok _ _ _ _ Hfk) as (Hlo & Hhi & Hne).
  destruct (Rtotal_order (p_min st) (p_max st)) as [Hlt|[He|Hgt]];
    [|contradiction|].
  - now destruct (find_next_k_half_period _ _ _ _ (proj1 Hlo) Hlt (proj2 Hhi)
                    (Z.mul_nonneg_nonneg _ _ r_nonneg Hk) Hfk).
  - rewrite find_next_k_inverted in Hfk
      by (lra || now apply Z.mul_nonneg_nonneg).
    discriminate.
Qed.

End Tally.

(** X14: the degree only grows.  With r >= 1, from one pass to a later
    one k never decreases; a pass either keeps k or moves to a k above
    r times the old one. *)
Theorem degree_only_grows (rn : run) (alpha_T err_max : R) (i j : nat)
  (st st' : state) :
  (1 <= r (cfg rn))%Z -> (i <= j)%nat ->
  state_at rn alpha_T err_max i = Some st ->
  state_at rn alpha_T err_max j = Some st' ->
  (0 <= k st <= k st')%Z /\
  (forall st'' : state,
      chebpe_iter rn alpha_T err_max st' = Ok st'' ->
      k st'' = k st' \/ (r (cfg rn) * k st' < k st'')%Z).
Proof.
  intros Hr Hij Hi Hj.
  assert (0 <= r (cfg rn))%Z as Hr0 by lia.
  assert (forall n s, state_at rn alpha_T err_max n = Some s -> (0 <= k s)%Z)
    as Hpos.
  { intros n s Hs.
    now destruct (state_at_tally_ok rn alpha_T err_max Hr0 n s Hs). }
  split.
  - split; [now apply (Hpos i)|].
    revert st' Hj. induction Hij as [|j Hij IH]; intros st' Hj.
    + rewrite Hi in Hj. injection Hj as <-. lia.
    + apply state_at_succ in Hj. destruct Hj as (st0 & H0 & _ & Hstep).
      specialize (IH st0 H0).
      pose proof (Hpos j st0 H0).
      destruct (chebpe_iter_degree rn alpha_T err_max Hr0 st0 st'
                  ltac:(assumption) Hstep); nia.
  - intros st'' Hstep.
    apply (chebpe_iter_degree rn alpha_T err_max Hr0);
      [now apply (Hpos j)|exact Hstep].
Qed.

Lemma tally_is_consistent_witness :
  exists st : state,
    state_at example_run (1 / 40) (1 / 10) 1 = Some st /\
    (0 <= num_heads st <= num_flips st)%Z.
Proof.
  eexists. split; [apply state_at_one; simpl; lra|].
  apply (tally_is_consistent example_run (1 / 40) (1 / 10)
           ltac:(simpl; lia) 1).
  apply state_at_one. simpl. lra.
Defined.

Lemma degree_only_grows_witness :
  exists st : state,
    state_at example_run (1 / 40) (1 / 10) 1 = Some st /\
    (0 <= k init_state <= k st)%Z.
Proof.
  eexists. split; [apply state_at_one; simpl; lra|].
  apply (degree_only_grows example_run (1 / 40) (1 / 10)
           0 1 init_state _ ltac:(simpl; lia) ltac:(lia) eq_refl).
  apply state_at_one. simpl. lra.
Defined.

(** ** A zero gap *)






(** ** A configuration that is not checked *)

Lemma float_max_above (x : R) : x <= 4 -> x <= float_max.
Proof.
  intros Hx. unfold float_max.
  assert (0 < / 2 ^ 52 <= 1) as Hu.
  { split; [apply Rinv_0_lt_compat, pow_lt; lra|].
    apply Rle_trans with (/ 1); [|rewrite Rinv_1; lra].
    apply Rinv_le_contravar; [lra|]. apply pow_R1_Rle. lra. }
  assert (2 ^ 2 <= 2 ^ 1023) as Hp by (apply Rle_pow; [lra|lia]).
  set (M := 2 ^ 1023) in *. set (u := / 2 ^ 52) in *.
  simpl in Hp. nra.
Qed.

Lemma max_error_cp_no_shots (delta : R) (Nshots : Z) :
  (Nshots <= 0)%Z -> max_error_cp delta Nshots = 0.
Proof.
  intros H. unfold max_error_cp.
  destruct (Z.eq_dec Nshots 0) as [-> |Hn].
  - reflexivity.
  - unfold py_range.
    replace (Z.to_nat (Nshots + 1 - 0)) with 0%nat by lia. reflexivity.
Qed.

Lemma setup_ok_inv (rn : run) (T : Z) (alpha_T err_max : R) :
  setup rn = Ok (T, alpha_T, err_max) ->
  compute_T (eps rn) (r (cfg rn)) = Ok T /\ T <> 0%Z /\
  alpha_T = alpha rn / IZR T /\
  err_max = max_error_cp alpha_T (Nshots (cfg rn)).
Proof.
  unfold setup.
  destruct (compute_T (eps rn) (r (cfg rn))) as [T'|]; [|discriminate].
  cbn [bind]. unfold compute_alpha_T.
  destruct (Z.eqb_spec T' 0); [discriminate|]. cbn [bind].
  intros H. injection H as H1 H2 H3. subst. now repeat split.
Qed.

(** Whether the set-up raises is decided by epsilon and r. *)
Lemma setup_independent (rn rn' : run) (e : exn) :
  eps rn = eps rn' -> r (cfg rn) = r (cfg rn') ->
  setup rn = Raise e -> setup rn' = Raise e.
Proof.
  unfold setup. intros <- <-.
  destruct (compute_T (eps rn) (r (cfg rn))) as [T|e']; cbn [bind];
    [|trivial].
  unfold compute_alpha_T. destruct (T =? 0)%Z; cbn [bind];
    [trivial|discriminate].
Qed.

(** After a set-up that returns, the first pass draws a sample. *)
Lemma first_pass_queries (rn : run) (T : Z) (alpha_T err_max : R) :
  setup rn = Ok (T, alpha_T, err_max) ->
  eps rn < 1 / 2 -> 0 < nu (cfg rn) ->
  exists st : state,
    state_at rn alpha_T err_max 1 = Some st /\
    (forall fuel : nat,
        chebpe rn (1 + fuel) = chebpe_loop rn alpha_T err_max fuel st) /\
    (1 <= draws st)%nat /\ queries st = Z.of_nat (draws st).
Proof.
  intros Hs He Hnu.
  pose proof (setup_ok_pos rn T alpha_T err_max Hs) as Hpos.
  destruct (setup_ok_inv rn T alpha_T err_max Hs) as (_ & _ & _ & Herr).
  eexists. split; [apply state_at_one; lra|]. split.
  { intros fuel. eapply chebpe_after_setup; [exact Hs|].
    apply state_at_one. lra. }
  match goal with
  | |- (1 <= draws (update ?a ?s))%nat /\ _ =>
      destruct (update_keeps_tally a s) as (_ & _ & _ & -> & ->)
  end.
  match goal with
  | |- (1 <= draws (toss ?rn' ?T2 ?c ?s))%nat /\ _ =>
      destruct (toss_tally rn' T2 c s) as (-> & _ & -> & _)
  end.
  cbn [draws queries k init_state].
  assert (1 <= Nshots_i rn err_max init_state)%Z as Hn.
  { unfold Nshots_i. destruct (is_late rn err_max init_state) eqn:Hl; [lia|].
    destruct (Z_le_gt_dec (Nshots (cfg rn)) 0) as [Hle|]; [|lia].
    exfalso.
    assert (Nshots_i rn err_max init_state = 1%Z) as H1.
    { apply is_late_degree_zero; simpl; try lra; try reflexivity.
      rewrite Herr, max_error_cp_no_shots by assumption. nra. }
    unfold Nshots_i in H1. rewrite Hl in H1. lia. }
  split; lia.
Qed.

Lemma setup_unchecked_run :
  setup unchecked_run = Ok (2%Z, 2 / 2, max_error_cp (2 / 2) (-1)).
Proof.
  unfold setup. simpl eps. simpl r. rewrite compute_T_eighth. reflexivity.
Qed.

(** C6, amended: the configuration is not checked.  (a) With epsilon <= 0
    step 1 raises before the loop starts, so no sample is drawn and no
    query is charged; the exception is the arithmetic one of step 1, a
    ValueError when epsilon is below 0.  (b) Whether the set-up raises
    depends on epsilon and r only: alpha and Nshots are not looked at.
    (c) Whatever alpha and Nshots are, once the set-up has returned, with
    epsilon < 1/2 and nu > 0, the first pass draws a sample and charges a
    query for it, and the run goes on from there. *)
Theorem chebpe_validates_nothing :
  (forall (rn : run) (fuel : nat),
      eps rn <= 0 ->
      exists e : exn,
        chebpe rn fuel = Raised e init_state /\
        (- float_max <= 2 * eps rn -> eps rn < 0 -> e = ValueError) /\
        queries init_state = 0%Z /\ draws init_state = 0%nat) /\
  (forall (rn rn' : run) (e : exn),
      eps rn = eps rn' -> r (cfg rn) = r (cfg rn') ->
      setup rn = Raise e -> setup rn' = Raise e) /\
  (forall (rn : run) (T : Z) (alpha_T err_max : R),
      setup rn = Ok (T, alpha_T, err_max) ->
      eps rn < 1 / 2 -> 0 < nu (cfg rn) ->
      exists st : state,
        state_at rn alpha_T err_max 1 = Some st /\
        (forall fuel : nat,
            chebpe rn (1 + fuel) = chebpe_loop rn alpha_T err_max fuel st) /\
        (1 <= draws st)%nat /\ queries st = Z.of_nat (draws st)).
Proof.
  split; [|split].
  - intros rn fuel He.
    exists (if Req_dec_T (eps rn) 0 then ZeroDivisionError else ValueError).
    split; [|split; [|split; reflexivity]].
    + unfold chebpe, setup. rewrite compute_T_raises by assumption.
      reflexivity.
    + intros _ Hneg. destruct (Req_dec_T (eps rn) 0); [lra|reflexivity].
  - exact setup_independent.
  - exact first_pass_queries.
Qed.

Lemma setup_negative_eps :
  setup (mkRun (3 / 10) (-1) (1 / 20) default_config (fun _ => 1 / 2)) =
  Raise ValueError.
Proof.
  unfold setup. simpl eps. rewrite compute_T_raises by lra.
  destruct (Req_dec_T (-1) 0); [lra|reflexivity].
Qed.

Lemma chebpe_validates_nothing_witness :
  chebpe (mkRun (3 / 10) (-1) (1 / 20) default_config (fun _ => 1 / 2)) 10 =
  Raised ValueError init_state /\
  setup (mkRun (3 / 10) (-1) 2 (mkConfig 8 2 (-1)) (fun _ => 1 / 2)) =
  Raise ValueError /\
  exists st : state,
    state_at unchecked_run (2 / 2) (max_error_cp (2 / 2) (-1)) 1 = Some st /\
    (1 <= draws st)%nat.
Proof.
  destruct chebpe_validates_nothing as (Ha & Hb & Hc).
  split; [|split].
  - destruct (Ha (mkRun (3 / 10) (-1) (1 / 20) default_config
                    (fun _ => 1 / 2)) 10%nat ltac:(simpl; lra))
      as (e & Hr & He & _).
    rewrite Hr, He; [reflexivity| |simpl; lra].
    simpl eps. pose proof (float_max_above 2 ltac:(lra)). lra.
  - apply (Hb (mkRun (3 / 10) (-1) (1 / 20) default_config (fun _ => 1 / 2)));
      [reflexivity|reflexivity|exact setup_negative_eps].
  - destruct (Hc unchecked_run 2%Z (2 / 2) (max_error_cp (2 / 2) (-1))
                setup_unchecked_run ltac:(simpl; lra) ltac:(simpl; lra))
      as (st & Hst & _ & Hd & _).
    exists st. split; [exact Hst|exact Hd].
Defined.

(** ** A loop without a cap *)

(** C7, amended: the loop has no cap on its passes and reports no error of
    its own.  T is computed once, in the set-up, and only gives alpha_T.
    Once the set-up has returned: (a) after any number of passes, 2T or
    more included, a width above 2 epsilon leads to one more pass, which
    does not raise; (b) the run never raises; (c) the run returns only
    from the top of a pass where the width is at most 2 epsilon. *)
Theorem chebpe_stops_on_width_only (rn : run) (T : Z) (alpha_T err_max : R) :
  setup rn = Ok (T, alpha_T, err_max) ->
  (forall (i : nat) (st : state),
      state_at rn alpha_T err_max i = Some st ->
      width st > eps rn * 2 ->
      exists st' : state,
        chebpe_iter rn alpha_T err_max st = Ok st' /\
        state_at rn alpha_T err_max (S i) = Some st' /\
        forall fuel : nat,
          chebpe rn (S i + fuel) = chebpe_loop rn alpha_T err_max fuel st') /\
  (forall (fuel : nat) (e : exn) (st : state),
      chebpe rn fuel <> Raised e st) /\
  (forall (fuel : nat) (res : record),
      chebpe rn fuel = Returned res ->
      exists (i : nat) (st : state),
        state_at rn alpha_T err_max i = Some st /\
        width st <= eps rn * 2 /\ res = make_record rn st).
Proof.
  intros Hs.
  pose proof (setup_ok_pos rn T alpha_T err_max Hs) as He.
  split; [|split].
  - intros i st Hst Hw.
    pose proof (continue_true rn st Hw) as Hc.
    destruct (pass_does_not_raise rn alpha_T err_max i st
                ltac:(lra) Hst Hc) as [st' Hi].
    assert (state_at rn alpha_T err_max (S i) = Some st') as Hst'
      by (simpl; now rewrite Hst, Hc, Hi).
    exists st'. split; [exact Hi|]. split; [exact Hst'|].
    intros fuel. now apply (chebpe_after_setup rn T).
  - intros fuel e st Hr. unfold chebpe in Hr. rewrite Hs in Hr.
    pose proof (chebpe_loop_outcome rn alpha_T err_max fuel 0 init_state
                  eq_refl) as Ho.
    rewrite Hr in Ho. destruct Ho as (j & Hst & Hc & Hi).
    destruct (pass_does_not_raise rn alpha_T err_max j st
                ltac:(lra) Hst Hc) as [st' Hok].
    rewrite Hok in Hi. discriminate.
  - intros fuel res Hr. unfold chebpe in Hr. rewrite Hs in Hr.
    pose proof (chebpe_loop_outcome rn alpha_T err_max fuel 0 init_state
                  eq_refl) as Ho.
    rewrite Hr in Ho. destruct Ho as (j & st & Hst & Hc & ->).
    exists j, st. split; [exact Hst|]. split; [|reflexivity].
    unfold continue in Hc. unfold width.
    destruct (Rgt_dec _ _) as [|Hn]; [discriminate|lra].
Qed.

Lemma chebpe_stops_on_width_only_witness :
  exists st st' : state,
    state_at tails_run (1 / 20 / 2) (max_error_cp (1 / 20 / 2) 100) 4
    = Some st /\
    state_at tails_run (1 / 20 / 2) (max_error_cp (1 / 20 / 2) 100) 5
    = Some st' /\
    (4 >= 2 * 2)%nat.
Proof.
  pose proof (max_error_cp_bound (1 / 20 / 2) 100) as Hb.
  destruct (tails_run_reaches (max_error_cp (1 / 20 / 2) 100) 4
              ltac:(lra) ltac:(lia)) as (st & Hst & Hinv).
  destruct (chebpe_stops_on_width_only tails_run 2 _ _ setup_tails_run)
    as (Ha & _ & _).
  destruct (Ha 4%nat st Hst) as (st' & _ & Hst' & _).
  { destruct Hinv as (Hlo & _ & _ & _ & Hhi).
    unfold width. rewrite Hlo. simpl. lra. }
  exists st, st'. split; [exact Hst|]. split; [exact Hst'|lia].
Defined.

(** ** The worst-case width *)

Lemma in_py_range (lo hi c : Z) :
  In c (py_range lo hi) <-> (lo <= c < hi)%Z.
Proof.
  unfold py_range. rewrite in_map_iff. split.
  - intros (i & <- & Hi). apply in_seq in Hi. lia.
  - intros Hc. exists (Z.to_nat (c - lo)). split; [lia|].
    apply in_seq. lia.
Qed.

Lemma max_error_step_grows (delta : R) (Nshots : Z) (acc : R) (c : Z) :
  acc <= max_error_step delta Nshots acc c.
Proof.
  unfold max_error_step.
  destruct (proportion_confint c Nshots delta) as [[lower|] [upper|]];
    try lra.
  destruct (Rgt_dec _ _); lra.
Qed.

Lemma max_error_step_above (delta : R) (Nshots : Z) (acc : R) (c : Z)
  (lower upper : R) :
  proportion_confint c Nshots delta = (Some lower, Some upper) ->
  (upper - lower) / 2 <= max_error_step delta Nshots acc c.
Proof.
  intros H. unfold max_error_step. rewrite H.
  destruct (Rgt_dec _ _); lra.
Qed.

Lemma max_error_fold_grows (delta : R) (Nshots : Z) (l : list Z) (acc : R) :
  acc <= fold_left (max_error_step delta Nshots) l acc.
Proof.
  revert acc. induction l as [|c l IH]; intros acc; simpl; [lra|].
  eapply Rle_trans; [apply (max_error_step_grows delta Nshots acc c)|].
  apply IH.
Qed.

Lemma max_error_fold_above (delta : R) (Nshots : Z) (l : list Z) (acc : R)
  (c : Z) (lower upper : R) :
  In c l ->
  proportion_confint c Nshots delta = (Some lower, Some upper) ->
  (upper - lower) / 2 <= fold_left (max_error_step delta Nshots) l acc.
Proof.
  revert acc. induction l as [|c' l IH]; intros acc Hin Hci; [easy|].
  simpl. destruct Hin as [->|Hin].
  - eapply Rle_trans; [apply (max_error_step_above _ _ acc _ _ _ Hci)|].
    apply max_error_fold_grows.
  - now apply IH.
Qed.

Lemma max_error_step_cases (delta : R) (Nshots : Z) (acc : R) (c : Z) :
  max_error_step delta Nshots acc c = acc \/
  exists lower upper : R,
    proportion_confint c Nshots delta = (Some lower, Some upper) /\
    max_error_step delta Nshots acc c = (upper - lower) / 2.
Proof.
  unfold max_error_step.
  destruct (proportion_confint c Nshots delta) as [[lower|] [upper|]];
    try (now left).
  destruct (Rgt_dec _ _); [|now left].
  right. now exists lower, upper.
Qed.

Lemma max_error_fold_attained (delta : R) (Nshots : Z) (l : list Z)
  (acc : R) :
  fold_left (max_error_step delta Nshots) l acc = acc \/
  exists (c : Z) (lower upper : R),
    In c l /\
    proportion_confint c Nshots delta = (Some lower, Some upper) /\
    fold_left (max_error_step delta Nshots) l acc = (upper - lower) / 2.
Proof.
  revert acc. induction l as [|c l IH]; intros acc; simpl; [now left|].
  destruct (IH (max_error_step delta Nshots acc c)) as [He|Hex].
  - rewrite He.
    destruct (max_error_step_cases delta Nshots acc c)
      as [Hs|(lower & upper & Hci & Hs)]; [now left|].
    right. exists c, lower, upper. repeat split; auto.
  - destruct Hex as (c' & lower & upper & Hin & Hci & Hval).
    right. exists c', lower, upper. repeat split; auto.
Qed.

(** X15: [max_error_cp] is the widest half-width.  Its value is in
    [0, 1/2]; it is at least the half-width of the binomial interval of
    every count from 0 to Nshots; it is 0 or the half-width of one of
    them; and it is 0 when Nshots is negative. *)
Theorem max_error_cp_is_the_widest (delta : R) (Nshots : Z) :
  0 <= max_error_cp delta Nshots <= 1 / 2 /\
  (forall (c : Z) (lower upper : R),
      (0 <= c <= Nshots)%Z ->
      proportion_confint c Nshots delta = (Some lower, Some upper) ->
      (upper - lower) / 2 <= max_error_cp delta Nshots) /\
  (max_error_cp delta Nshots = 0 \/
   exists (c : Z) (lower upper : R),
     (0 <= c <= Nshots)%Z /\
     proportion_confint c Nshots delta = (Some lower, Some upper) /\
     max_error_cp delta Nshots = (upper - lower) / 2) /\
  ((Nshots < 0)%Z -> max_error_cp delta Nshots = 0).
Proof.
  split; [apply max_error_cp_bound|]. split; [|split].
  - intros c lower upper Hc Hci. unfold max_error_cp.
    apply (max_error_fold_above _ _ _ _ c lower upper); [|exact Hci].
    apply in_py_range. lia.
  - unfold max_error_cp.
    destruct (max_error_fold_attained delta Nshots
                (py_range 0 (Nshots + 1)) 0) as [He|Hex]; [now left|].
    destruct Hex as (c & lower & upper & Hin & Hci & Hval).
    right. exists c, lower, upper. apply in_py_range in Hin.
    repeat split; (lia || assumption).
  - intros Hn. unfold max_error_cp, py_range.
    replace (Z.to_nat (Nshots + 1 - 0)) with 0%nat by lia. reflexivity.
Qed.

(** ** The number of rounds *)

Lemma ln_pos_above_one (x : R) : 1 < x -> 0 < ln x.
Proof. intros H. rewrite <- ln_1. apply ln_increasing; lra. Qed.

Lemma ln_monotone (x y : R) : 0 < x -> x <= y -> ln x <= ln y.
Proof.
  intros Hx [Hlt | ->]; [|lra]. left. now apply ln_increasing.
Qed.


Lemma compute_T_ceil (eps : R) (r : Z) :
  0 < eps -> (2 <= r)%Z ->
  compute_T eps r = Ok (Zceil (ln (1 / (2 * eps)) / ln (IZR r))).
Proof.
  intros He Hr. unfold compute_T.
  destruct (Req_dec_T (2 * eps) 0); [lra|].
  destruct (Rlt_dec (1 / (2 * eps)) 0) as [Hneg|_].
  { assert (0 < / (2 * eps)) by (apply Rinv_0_lt_compat; lra). lra. }
  destruct (Z.ltb_spec r 0); [lia|].
  destruct (Z.eqb_spec r 0); [lia|].
  destruct (Z.eqb_spec r 1); [lia|]. reflexivity.
Qed.







(** ** The target 0 *)

Lemma proportion_confint_no_heads (m : Z) (delta : R) :
  (0 < m)%Z -> 0 <= delta / 2 <= 1 ->
  proportion_confint 0 m delta =
  (Some 0, Some (beta_ppf (1 - delta / 2) 1 (Z.to_nat m))).
Proof.
  intros Hm Hd.
  replace m with (Z.of_nat (Z.to_nat m - 1) + 1)%Z at 1 by lia.
  rewrite proportion_confint_tails by assumption.
  do 3 f_equal. lia.
Qed.

Lemma toss_no_heads (rn : run) (count : nat) (st : state) :
  (forall i : nat, 0 <= rand rn i) ->
  num_heads (toss rn 0 count st) = num_heads st.
Proof.
  intros Hrand. revert st. induction count as [|c IH]; intros st;
    [reflexivity|].
  cbn [toss]. rewrite IH. unfold toss_once. cbn [num_heads].
  destruct (Rlt_dec _ _) as [Hlt|]; [|reflexivity].
  pose proof (Hrand (draws st)). lra.
Qed.

Section ZeroTarget.

Variable rn : run.
Variables alpha_T err_max : R.

Hypothesis target_zero : p_target rn = 0.
Hypothesis rand_nonneg : forall i : nat, 0 <= rand rn i.
Hypothesis shots_pos : (1 <= Nshots (cfg rn))%Z.
Hypothesis alpha_T_ok : 0 <= alpha_T / 2 <= 1.

Lemma shots_of_pos (st : state) (new_k : option Z) :
  (1 <= shots_of rn err_max st new_k)%nat.
Proof.
  unfold shots_of, Nshots_i. destruct (is_late _ _ _); lia.
Qed.

Lemma zero_target_step (j : nat) (st st' : state) :
  zero_inv alpha_T j st ->
  chebpe_iter rn alpha_T err_max st = Ok st' ->
  zero_inv alpha_T (S j) st'.
Proof.
  destruct st as [pmin pmax flips heads kk q d].
  unfold zero_inv at 1. cbn [p_min p_max k num_heads num_flips].
  intros (-> & -> & -> & Hfl & Hp & Hup) Hi.
  apply chebpe_iter_ok in Hi. destruct Hi as (new_k & Hf & ->).
  cbn [p_min p_max k] in Hf. rewrite Z.mul_0_r in Hf.
  rewrite find_next_k_from_zero in Hf by (lra || lia).
  injection Hf as <-. cbn [adopt k].
  change (2 * 0 + 1)%Z with 1%Z.
  rewrite target_zero, cheb_1_sq by lra.
  set (st0 := mkState 0 pmax flips 0 0 q d).
  pose proof (shots_of_pos st0 None) as Hs.
  set (shots := shots_of rn err_max st0 None) in *.
  destruct (toss_keeps_interval rn 0 shots st0) as [E1 E2].
  pose proof (toss_keeps_k rn 0 shots st0) as E3.
  pose proof (toss_no_heads rn shots st0 rand_nonneg) as E4.
  destruct (toss_tally rn 0 shots st0) as (_ & E5 & _).
  set (st2 := toss rn 0 shots st0) in *.
  cbn [p_min p_max k num_heads num_flips st0] in E1, E2, E3, E4, E5.
  assert (0 < num_flips st2)%Z as Hpos by lia.
  destruct (update_keeps_tally alpha_T st2) as (G1 & G2 & G3 & _).
  unfold zero_inv. rewrite G1, G2, G3, E3, E4.
  unfold update. rewrite E4.
  rewrite proportion_confint_no_heads by assumption.
  cbn [option_map py_sorted py_max py_min p_min p_max].
  rewrite E1, E2, E3. change (2 * 0 + 1)%Z with 1%Z.
  set (U := beta_ppf (1 - alpha_T / 2) 1 (Z.to_nat (num_flips st2))).
  pose proof (beta_ppf_unit (1 - alpha_T / 2) 1 (Z.to_nat (num_flips st2)))
    as HU. fold U in HU.
  rewrite !invert_T2rootp_degree_one by lra.
  pose proof slack_pos as Hsl.
  rewrite (Rmin_left 0 U), (Rmax_right 0 U) by lra.
  repeat split; try lia.
  - apply Rmax_left. lra.
  - apply Rmin_glb_lt; lra.
  - eapply Rle_trans; [apply Rmin_l|]. lra.
  - intros _. apply Rmin_r.
Qed.

Lemma zero_target_state (j : nat) (st : state) :
  state_at rn alpha_T err_max j = Some st -> zero_inv alpha_T j st.
Proof.
  revert st. induction j as [|j IH]; intros st H.
  - injection H as <-. unfold zero_inv. simpl.
    repeat split; try lia; try lra.
  - apply state_at_succ in H. destruct H as (st0 & H0 & _ & Hi).
    now apply (zero_target_step j st0 st (IH st0 H0) Hi).
Qed.

Lemma zero_target_covers (j : nat) (st : state) :
  state_at rn alpha_T err_max (S j) = Some st -> covers rn alpha_T st.
Proof.
  intros H.
  pose proof (zero_target_state (S j) st H) as (Hlo & Hk & Hh & Hf & Hp & _).
  unfold covers. rewrite Hk, Hh.
  rewrite proportion_confint_no_heads by (lia || assumption).
  do 2 eexists. split; [reflexivity|].
  change (2 * 0 + 1)%Z with 1%Z.
  rewrite target_zero, cheb_1_sq by lra.
  pose proof (beta_ppf_unit (1 - alpha_T / 2) 1 (Z.to_nat (num_flips st))).
  lra.
Qed.

End ZeroTarget.

(** After three tails or more, the upper bound of the interval at
    significance 1/20 is at most 3/4. *)
Lemma upper_after_three_tails (m : nat) :
  (3 <= m)%nat -> beta_ppf (1 - 1 / 20 / 1 / 2) 1 m <= 3 / 4.
Proof.
  intros Hm. apply (proj2 (beta_ppf_lub _ _ _)).
  intros x [Hx [-> |Hc]]; [lra|].
  unfold beta_cdf in Hc. replace (1 + m - 1)%nat with m in Hc by lia.
  rewrite binom_tail_one in Hc by lia.
  destruct (Rle_dec x (3 / 4)) as [|Hn]; [assumption|]. exfalso.
  apply Rnot_le_lt in Hn.
  assert (exists d : nat, m = (3 + d)%nat) as [d ->]
    by (exists (m - 3)%nat; lia).
  rewrite pow_add in Hc.
  assert (0 <= (1 - x) ^ d <= 1) as Hq.
  { split; [apply pow_le; lra|].
    apply Rle_trans with (1 ^ d); [apply pow_incr; lra|].
    rewrite pow1. lra. }
  assert (0 <= (1 - x) ^ 3 < 1 / 64) as Hc3.
  { assert (0 <= 1 - x < 1 / 4) as Hy by lra.
    set (y := 1 - x) in *. simpl. split; nra. }
  nra.
Qed.

Lemma compute_T_short : compute_T (2 / 5) 2 = Ok 1%Z.
Proof.
  rewrite compute_T_ceil by (lra || lia). f_equal.
  apply Zceil_eq.
  replace (1 / (2 * (2 / 5))) with (5 / 4) by field.
  pose proof ln_2_pos.
  assert (0 < ln (5 / 4)) by (apply ln_pos_above_one; lra).
  assert (ln (5 / 4) <= ln 2) by (apply ln_monotone; lra).
  simpl. split.
  - replace (1 - 1) with 0 by ring. apply Rdiv_lt_0_compat; lra.
  - apply (Rmult_le_reg_r (ln 2)); [lra|].
    replace (ln (5 / 4) / ln 2 * ln 2) with (ln (5 / 4)) by (field; lra).
    lra.
Qed.

Lemma setup_short_run :
  setup short_run = Ok (1%Z, 1 / 20 / 1, max_error_cp (1 / 20 / 1) 100).
Proof.
  unfold setup. simpl eps. simpl r. rewrite compute_T_short. reflexivity.
Qed.

Lemma short_run_state (err_max : R) (j : nat) (st : state) :
  state_at short_run (1 / 20 / 1) err_max j = Some st ->
  zero_inv (1 / 20 / 1) j st.
Proof.
  apply zero_target_state; simpl; try lia; try lra.
  intros _. lra.
Qed.

(** The run with the target 0 and epsilon = 2/5 returns within three
    passes. *)
Lemma short_run_returns (err_max : R) (fuel j : nat) (st : state) :
  state_at short_run (1 / 20 / 1) err_max j = Some st ->
  (3 <= j + fuel)%nat ->
  exists res : record,
    chebpe_loop short_run (1 / 20 / 1) err_max fuel st = Returned res.
Proof.
  revert j st. induction fuel as [|fuel IH]; intros j st Hst Hj.
  - pose proof (short_run_state err_max j st Hst)
      as (Hlo & _ & _ & Hf & Hp & Hup).
    simpl. unfold continue. destruct (Rgt_dec _ _) as [Hgt|]; [|eauto].
    exfalso. simpl eps in Hgt. rewrite Hlo in Hgt.
    specialize (Hup ltac:(lia)).
    pose proof (upper_after_three_tails (Z.to_nat (num_flips st))
                  ltac:(lia)).
    assert (slack <= 1 / 100) as Hs.
    { unfold slack. apply (Rmult_le_reg_r (10 ^ 15)); [apply pow_lt; lra|].
      replace (1 / 10 ^ 15 * 10 ^ 15) with 1
        by (field; apply pow_nonzero; lra).
      simpl. lra. }
    lra.
  - simpl. destruct (continue short_run st) eqn:Hc; [|eauto].
    destruct (pass_does_not_raise short_run (1 / 20 / 1) err_max j st
                ltac:(simpl; lra) Hst Hc) as [st' Hi].
    rewrite Hi. apply (IH (S j)); [|lia].
    simpl. now rewrite Hst, Hc, Hi.
Qed.

Lemma estimate_within_epsilon_witness :
  exists res : record,
    chebpe short_run 3 = Returned res /\
    exact_error res <= ci_width res /\ ci_width res <= eps short_run.
Proof.
  destruct (short_run_returns (max_error_cp (1 / 20 / 1) 100) 3 0 init_state
              eq_refl ltac:(lia)) as [res Hres].
  assert (chebpe short_run 3 = Returned res) as Hrun.
  { unfold chebpe. rewrite setup_short_run. exact Hres. }
  exists res. split; [exact Hrun|].
  apply (estimate_within_epsilon short_run 3 res 1 (1 / 20 / 1)
           (max_error_cp (1 / 20 / 1) 100)).
  - simpl. lia.
  - simpl. lra.
  - apply setup_short_run.
  - intros j st Hst.
    apply (zero_target_covers short_run (1 / 20 / 1)
             (max_error_cp (1 / 20 / 1) 100)) with (j := j);
      simpl; try lia; try lra; try exact Hst.
    intros _. lra.
  - exact Hrun.
Defined.
